(** * pg_unique_slug: timestamp slugs with per-digit letter buckets

    A shallow embedding of [pg_unique_slug.c] and the properties of its
    three functions, [get_timestamp_value], [timestamp_to_slug] and
    [gen_unique_slug].

    Conventions.
    - C integers are [Z]; a conversion to [uint64] is written out as a
      reduction modulo [2^64], and [/] on signed operands is [Z.quot].
    - [char] buffers are [list ascii]; a C string literal is the list of
      its characters, the terminating NUL being written where the code
      writes it.
    - The two facilities the code calls out to, [clock_gettime] and
      [pg_strong_random], are oracles of the [world]: the k-th call
      returns what the oracle says for k.  The [state] that is threaded
      through the code counts those calls.
    - [ereport(ERROR, ...)] does not return: it is the [Raise] outcome
      of the monad.  An access outside a table or past the end of a
      buffer is the [Undefined] outcome. *)

From Stdlib Require Import ZArith Ascii String List Bool Lia.
From Stdlib Require Strings.Byte.
Import ListNotations.
Local Open Scope Z_scope.

(** ** Outcomes, state and the monad *)

Inductive sqlerrcode : Type :=
  | ERRCODE_INTERNAL_ERROR          (* elog.c's default for ERROR *)
  | ERRCODE_INVALID_PARAMETER_VALUE.

Record pg_error : Type := mkError
  { err_code : sqlerrcode;
    err_msg  : string;
    err_hint : option string }.

Inductive outcome (A : Type) : Type :=
  | Ok (a : A)
  | Raise (e : pg_error)
  | Undefined.
Arguments Ok {A} a.
Arguments Raise {A} e.
Arguments Undefined {A}.

Record timespec : Type := mkTimespec { tv_sec : Z; tv_nsec : Z }.

Record world : Type := mkWorld
  { realtime      : nat -> timespec;       (* k-th clock_gettime(CLOCK_REALTIME) *)
    strong_random : nat -> option Byte.byte }.  (* k-th pg_strong_random(&rnd, 1);
                                              None when it returns false *)

(** The arms of the [switch] in [get_timestamp_value]. *)
Inductive switch_arm : Type :=
  | Arm10 | Arm13 | Arm16 | Arm19 | ArmDefault.

Record state : Type := mkState
  { clock_reads  : nat;
    random_draws : nat;
    arms_taken   : list switch_arm }.

Definition initial_state : state := mkState 0 0 [].

Definition M (A : Type) : Type := state -> outcome A * state.

Definition ret {A} (a : A) : M A := fun st => (Ok a, st).

Definition bind {A B} (m : M A) (k : A -> M B) : M B :=
  fun st =>
    match m st with
    | (Ok a, st')    => k a st'
    | (Raise e, st') => (Raise e, st')
    | (Undefined, st') => (Undefined, st')
    end.

Notation "x <- m ;; k" := (bind m (fun x => k))
  (at level 61, m at next level, right associativity).
Notation "m ;;; k" := (bind m (fun _ => k))
  (at level 61, right associativity).

Definition ereport_ERROR {A} (e : pg_error) : M A := fun st => (Raise e, st).

Definition undefined {A} : M A := fun st => (Undefined, st).

(** [a[i]] for a C array whose initialised part is [l]. *)
Definition index {A} (l : list A) (i : Z) : option A :=
  if i <? 0 then None else nth_error l (Z.to_nat i).

Definition load {A} (l : list A) (i : Z) : M A :=
  match index l i with
  | Some a => ret a
  | None   => undefined
  end.

(** ** Integer conversions *)

Definition UINT64_MODULUS : Z := 2 ^ 64.

Definition to_uint64 (x : Z) : Z := x mod UINT64_MODULUS.

Definition u64_add (a b : Z) : Z := to_uint64 (a + b).
Definition u64_mul (a b : Z) : Z := to_uint64 (a * b).

(** ** The tables *)

Definition digit_buckets : list (list ascii) :=
  [ list_ascii_of_string "qWeRtY";    (* 0: 6 letters *)
    list_ascii_of_string "QwErTy";    (* 1: 6 letters *)
    list_ascii_of_string "uIoPa";     (* 2: 5 letters *)
    list_ascii_of_string "UiOpA";     (* 3: 5 letters *)
    list_ascii_of_string "sDfGh";     (* 4: 5 letters *)
    list_ascii_of_string "SdFgH";     (* 5: 5 letters *)
    list_ascii_of_string "jKlZx";     (* 6: 5 letters *)
    list_ascii_of_string "JkLzX";     (* 7: 5 letters *)
    list_ascii_of_string "cVbNm";     (* 8: 5 letters *)
    list_ascii_of_string "CvBnM" ].   (* 9: 5 letters *)

Definition bucket_sizes : list Z := [6; 6; 5; 5; 5; 5; 5; 5; 5; 5].

(** ** The external calls *)

Section Program.

Variable w : world.

Definition clock_gettime : M timespec :=
  fun st =>
    (Ok (realtime w (clock_reads st)),
     mkState (S (clock_reads st)) (random_draws st) (arms_taken st)).

Definition pg_strong_random : M (option Byte.byte) :=
  fun st =>
    (Ok (strong_random w (random_draws st)),
     mkState (clock_reads st) (S (random_draws st)) (arms_taken st)).

(** Ghost step: which arm of the switch control went through. *)
Definition enter_arm (a : switch_arm) : M unit :=
  fun st =>
    (Ok tt, mkState (clock_reads st) (random_draws st) (a :: arms_taken st)).

(** ** get_timestamp_value *)

Definition select_arm (precision : Z) : switch_arm :=
  if precision =? 10 then Arm10
  else if precision =? 13 then Arm13
  else if precision =? 16 then Arm16
  else if precision =? 19 then Arm19
  else ArmDefault.

Definition get_timestamp_value (precision : Z) : M Z :=
  ts <- clock_gettime ;;
  let arm := select_arm precision in
  enter_arm arm ;;;
  match arm with
  | Arm10 =>      (* seconds *)
      ret (to_uint64 (tv_sec ts))
  | Arm13 =>      (* milliseconds *)
      ret (u64_add (u64_mul (to_uint64 (tv_sec ts)) 1000)
                   (to_uint64 (Z.quot (tv_nsec ts) 1000000)))
  | Arm16 =>      (* microseconds *)
      ret (u64_add (u64_mul (to_uint64 (tv_sec ts)) 1000000)
                   (to_uint64 (Z.quot (tv_nsec ts) 1000)))
  | Arm19 =>      (* nanoseconds *)
      ret (u64_add (u64_mul (to_uint64 (tv_sec ts)) 1000000000)
                   (to_uint64 (tv_nsec ts)))
  | ArmDefault =>
      ret (u64_add (u64_mul (to_uint64 (tv_sec ts)) 1000000)
                   (to_uint64 (Z.quot (tv_nsec ts) 1000)))
  end.

(** ** snprintf(digits, sizeof(digits), "%0*llu", len, ts) *)

Definition digit_char (d : Z) : ascii := ascii_of_N (48 + Z.to_N d).

(** Decimal digits of [v], least significant first.  An
    [unsigned long long] has at most 20 of them, which is the fuel
    [utoa] gives. *)
Fixpoint utoa_rev (fuel : nat) (v : Z) : list ascii :=
  match fuel with
  | O => []
  | S fuel' =>
      digit_char (v mod 10)
        :: (if v / 10 =? 0 then [] else utoa_rev fuel' (v / 10))
  end.

Definition utoa (v : Z) : list ascii := rev (utoa_rev 20 v).

(** The conversion [%0*llu] with the width taken from an [int]
    argument: zeros on the left up to the width; a negative width is
    the [-] flag with the opposite width, which pads with blanks on the
    right and overrides [0]. *)
Definition format_0llu (width : Z) (v : Z) : list ascii :=
  let s := utoa v in
  if width <? 0
  then s ++ repeat " "%char (Z.to_nat (- width) - length s)
  else repeat "0"%char (Z.to_nat width - length s) ++ s.

(** [snprintf] stores at most [size - 1] characters and a NUL; the
    buffer is given by the characters before the NUL. *)
Definition snprintf_0llu (size : nat) (width : Z) (v : Z) : list ascii :=
  firstn (size - 1) (format_0llu width v).

(** ** timestamp_to_slug *)

Definition NUL : ascii := zero.

Definition random_failed : pg_error :=
  mkError ERRCODE_INTERNAL_ERROR "pg_strong_random failed" None.

(** The [for] loop, [n] iterations from index [i]; [slug] is
    [slug[0 .. slug_pos-1]]. *)
Fixpoint slug_loop (n : nat) (i : Z) (digits : list ascii) (half : Z)
                   (slug : list ascii) : M (list ascii) :=
  match n with
  | O => ret slug
  | S n' =>
      c <- load digits i ;;
      let digit := Z.of_N (N_of_ascii c) - 48 in
      bucket_size <- load bucket_sizes digit ;;
      (* Insert hyphen at midpoint *)
      let slug := if i =? half then slug ++ ["-"%char] else slug in
      (* Get random index into bucket *)
      r <- pg_strong_random ;;
      match r with
      | None => ereport_ERROR random_failed
      | Some rnd =>
          bucket <- load digit_buckets digit ;;
          ch <- load bucket (Z.rem (Z.of_N (Byte.to_N rnd)) bucket_size) ;;
          slug_loop n' (i + 1) digits half (slug ++ [ch])
      end
  end.

Definition timestamp_to_slug (ts : Z) (len : Z) : M (list ascii) :=
  let digits := snprintf_0llu 20 len (to_uint64 ts) in
  let half := Z.quot len 2 in
  slug <- slug_loop (Z.to_nat len) 0 digits half [] ;;
  ret (slug ++ [NUL]).

(** ** gen_unique_slug *)

(** The characters of a C string: those before its first NUL. *)
Fixpoint cstring_to_text (s : list ascii) : list ascii :=
  match s with
  | [] => []
  | c :: s' => if Ascii.eqb c NUL then [] else c :: cstring_to_text s'
  end.

Definition valid_length (len : Z) : bool :=
  negb ((negb (len =? 10)) && (negb (len =? 13))
        && (negb (len =? 16)) && (negb (len =? 19))).

Definition invalid_length_error : pg_error :=
  mkError ERRCODE_INVALID_PARAMETER_VALUE
          "slug_length must be 10, 13, 16, or 19"
          (Some "10=seconds, 13=milliseconds, 16=microseconds, 19=nanoseconds"%string).

(** [arg0] is [None] when the argument is NULL. *)
Definition gen_unique_slug (arg0 : option Z) : M (list ascii) :=
  (* Get length parameter, default to 16 if not provided *)
  let len := match arg0 with
             | None => 16
             | Some v => v
             end in
  (* Validate length - only 10, 13, 16, 19 allowed *)
  (if (negb (len =? 10)) && (negb (len =? 13))
      && (negb (len =? 16)) && (negb (len =? 19))
   then ereport_ERROR invalid_length_error
   else ret tt) ;;;
  (* Get timestamp with appropriate precision *)
  ts <- get_timestamp_value len ;;
  (* Convert to slug *)
  slug <- timestamp_to_slug ts len ;;
  ret (cstring_to_text slug).

End Program.

Definition run {A} (m : M A) : outcome A * state := m initial_state.

(** * Vocabulary of the properties *)

(** A character from '0' to '9'. *)
Definition is_decimal (c : ascii) : Prop :=
  exists d, 0 <= d <= 9 /\ c = digit_char d.

Ltac digit_cases d :=
  let H := fresh in
  assert (H : d = 0 \/ d = 1 \/ d = 2 \/ d = 3 \/ d = 4 \/ d = 5 \/
                d = 6 \/ d = 7 \/ d = 8 \/ d = 9) by lia;
  decompose [or] H; clear H; subst d.

(** The number a digit list (least significant first) denotes. *)
Fixpoint value_rev (l : list ascii) : Z :=
  match l with
  | [] => 0
  | c :: l' => (Z.of_N (N_of_ascii c) - 48) + 10 * value_rev l'
  end.

(** ... and most significant first, as printed. *)
Definition decimal_value (l : list ascii) : Z := value_rev (rev l).

(** The characters the loop reads: [digits[0 .. len-1]]. *)
Definition digit_string (ts len : Z) : list ascii :=
  firstn (Z.to_nat len) (snprintf_0llu 20 len (to_uint64 ts)).

(** What one pass of the loop body computes from the digit character
    [c] and the random byte [rnd]:
    [digit_buckets[digit][rnd % bucket_sizes[digit]]], when the three
    accesses are in range. *)
Definition encode_digit (c : ascii) (rnd : Byte.byte) : option ascii :=
  let digit := Z.of_N (N_of_ascii c) - 48 in
  match index bucket_sizes digit with
  | None => None
  | Some bucket_size =>
      match index digit_buckets digit with
      | None => None
      | Some bucket =>
          index bucket (Z.rem (Z.of_N (Byte.to_N rnd)) bucket_size)
      end
  end.

(** The letters of the digit characters [cs] under the random bytes
    [rs], one byte per digit. *)
Fixpoint encode_all (cs : list ascii) (rs : list Byte.byte)
  : option (list ascii) :=
  match cs, rs with
  | [], [] => Some []
  | c :: cs', r :: rs' =>
      match encode_digit c r, encode_all cs' rs' with
      | Some l, Some ls => Some (l :: ls)
      | _, _ => None
      end
  | _, _ => None
  end.

(** The letters of the ten buckets, bucket after bucket. *)
Definition all_letters : list ascii := concat digit_buckets.

(** Where the hyphen goes among the letters [ls], the first of which
    is for index [i]. *)
Fixpoint assemble (half i : Z) (ls : list ascii) : list ascii :=
  match ls with
  | [] => []
  | l :: ls' =>
      (if i =? half then ["-"%char] else []) ++ l :: assemble half (i + 1) ls'
  end.

(** The state after [n] more draws. *)
Definition advance (st : state) (n : nat) : state :=
  mkState (clock_reads st) (n + random_draws st) (arms_taken st).

(** The draws from the [d0]-th on succeed and give the bytes [rs]. *)
Definition draws_are (w : world) (d0 : nat) (rs : list Byte.byte) : Prop :=
  map (strong_random w) (seq d0 (length rs)) = map Some rs.

Definition is_letter (c : ascii) : Prop := In c all_letters.

(** The letters [ls] with the hyphen after the first [half] of them. *)
Definition slug_text (half : nat) (ls : list ascii) : list ascii :=
  firstn half ls ++ "-"%char :: skipn half ls.

(** Where the letter of digit position [i] ends up in the output. *)
Definition output_index (half i : nat) : nat :=
  if (i <? half)%nat then i else S i.

(** The conversion [get_timestamp_value] applies to a clock reading. *)
Definition timestamp_of (t : timespec) (precision : Z) : Z :=
  match select_arm precision with
  | Arm10 => to_uint64 (tv_sec t)
  | Arm13 => u64_add (u64_mul (to_uint64 (tv_sec t)) 1000)
                     (to_uint64 (Z.quot (tv_nsec t) 1000000))
  | Arm16 => u64_add (u64_mul (to_uint64 (tv_sec t)) 1000000)
                     (to_uint64 (Z.quot (tv_nsec t) 1000))
  | Arm19 => u64_add (u64_mul (to_uint64 (tv_sec t)) 1000000000)
                     (to_uint64 (tv_nsec t))
  | ArmDefault => u64_add (u64_mul (to_uint64 (tv_sec t)) 1000000)
                          (to_uint64 (Z.quot (tv_nsec t) 1000))
  end.

(** The length a call works with: 16 for a NULL argument. *)
Definition requested_length (arg0 : option Z) : Z :=
  match arg0 with
  | None => 16
  | Some v => v
  end.

(** The timestamp a call made in world [w] encodes. *)
Definition call_timestamp (w : world) (len : Z) : Z :=
  timestamp_of (realtime w 0) len.

(** Outcomes of a call made in the initial state. *)
Definition returns {A} (m : M A) (a : A) : Prop :=
  exists st, run m = (Ok a, st).

Definition raises {A} (m : M A) (e : pg_error) : Prop :=
  exists st, run m = (Raise e, st).

(** A far-future clock: 18000000000 s after the epoch, whose nanosecond
    count needs 20 digits, and a random source that always answers 42. *)
Definition far_future_world : world :=
  mkWorld (fun _ => mkTimespec 18000000000 5) (fun _ => Some Byte.x2a).

(** The table of the specification, row by row: digit, bucket letters
    in order, size. *)
Definition spec_bucket_table : list (Z * string * Z) :=
  [ (0, "qWeRtY"%string, 6);
    (1, "QwErTy"%string, 6);
    (2, "uIoPa"%string, 5);
    (3, "UiOpA"%string, 5);
    (4, "sDfGh"%string, 5);
    (5, "SdFgH"%string, 5);
    (6, "jKlZx"%string, 5);
    (7, "JkLzX"%string, 5);
    (8, "cVbNm"%string, 5);
    (9, "CvBnM"%string, 5) ].

(** The row of digit [d], its bucket and its size, as the table of the
    specification has them. *)
Definition spec_row (d : Z) : option (Z * string * Z) :=
  find (fun row => fst (fst row) =? d) spec_bucket_table.

Definition spec_DigitBucket (d : Z) : list ascii :=
  match spec_row d with
  | Some (_, letters, _) => list_ascii_of_string letters
  | None => []
  end.

Definition spec_bucket_size (d : Z) : Z :=
  match spec_row d with
  | Some (_, _, size) => size
  | None => 0
  end.

Definition decimal_digits : list Z := [0; 1; 2; 3; 4; 5; 6; 7; 8; 9].

(** The count of time units the specification gives for a clock
    reading, in exact integers with truncating division. *)
Definition spec_timestamp (secs nanos : Z) (precision : Z) : Z :=
  if precision =? 10 then secs
  else if precision =? 13 then secs * 1000 + Z.quot nanos 1000000
  else if precision =? 16 then secs * 1000000 + Z.quot nanos 1000
  else secs * 1000000000 + nanos.

(** A clock in the year 2554, when the count of nanoseconds passes
    [2^64]. *)
Definition year_2554_world : world :=
  mkWorld (fun _ => mkTimespec 18446744074 0) (fun _ => None).

(** A random source that fails at its fourth draw. *)
Definition failing_world : world :=
  mkWorld (fun _ => mkTimespec 1700000000 123456789)
          (fun k => if (k =? 3)%nat then None else Some Byte.x07).

(** The digit whose bucket holds [c], searching the buckets from
    digit [d] on. *)
Fixpoint bucket_of (c : ascii) (buckets : list (list ascii)) (d : Z) : option Z :=
  match buckets with
  | [] => None
  | b :: buckets' =>
      if existsb (Ascii.eqb c) b then Some d else bucket_of c buckets' (d + 1)
  end.

(** The digit character of a letter; nothing for any other character. *)
Definition decode_char (c : ascii) : list ascii :=
  match bucket_of c digit_buckets 0 with
  | Some d => [digit_char d]
  | None => []
  end.

(** The digit string of a slug: letter by letter, the separator
    dropped. *)
Definition decode (slug : list ascii) : list ascii := flat_map decode_char slug.

(** The digits the specification expects to be encoded when the value
    has more than [len] of them: the [len] lowest-order ones. *)
Definition spec_lowest_order_digits (ts len : Z) : list ascii :=
  let s := utoa (to_uint64 ts) in
  skipn (length s - Z.to_nat len) s.

(** A random source that always answers 0: each digit becomes the first
    letter of its bucket. *)
Definition zero_world : world :=
  mkWorld (fun _ => mkTimespec 12345678901 0) (fun _ => Some Byte.x00).

(** The same random source one second later. *)
Definition zero_world_next_second : world :=
  mkWorld (fun _ => mkTimespec 12345678902 0) (fun _ => Some Byte.x00).

(** Clocks set one and two seconds before the epoch. *)
Definition before_epoch_world : world :=
  mkWorld (fun _ => mkTimespec (-1) 0) (fun _ => Some Byte.x00).

Definition before_epoch_world_earlier : world :=
  mkWorld (fun _ => mkTimespec (-2) 0) (fun _ => Some Byte.x00).

(** The clock of the scenario, and a random source that counts up. *)
Definition scenario_world : world :=
  mkWorld (fun _ => mkTimespec 1700000000 123456789)
          (fun k => Byte.of_nat (7 * k + 3)).

(** Its first ten answers: 3, 10, 17, ... *)
Definition scenario_bytes : list Byte.byte :=
  [Byte.x03; Byte.x0a; Byte.x11; Byte.x18; Byte.x1f;
   Byte.x26; Byte.x2d; Byte.x34; Byte.x3b; Byte.x42].

(** No character occurs twice, as a boolean. *)
Fixpoint nodupb (l : list ascii) : bool :=
  match l with
  | [] => true
  | c :: l' => negb (existsb (Ascii.eqb c) l') && nodupb l'
  end.

(** An upper or lower case letter of ASCII. *)
Definition is_ascii_letter (c : ascii) : bool :=
  let n := N_of_ascii c in
  (((65 <=? n) && (n <=? 90)) || ((97 <=? n) && (n <=? 122)))%N.

(** The 256 characters. *)
Definition all_ascii : list ascii := map ascii_of_nat (seq 0 256).

(** Two worlds in the same second, with other nanoseconds and other
    random bytes (0 and 30 select the first letter of every bucket). *)
Definition late_in_second_world : world :=
  mkWorld (fun _ => mkTimespec 1700000000 999999999) (fun _ => Some Byte.x00).

Definition early_in_second_world : world :=
  mkWorld (fun _ => mkTimespec 1700000000 5) (fun _ => Some Byte.x1e).

Ltac div_facts x d :=
  let Hm := fresh "Hm" in
  let Hb := fresh "Hb" in
  pose proof (Z.div_mod x d ltac:(lia)) as Hm;
  pose proof (Z.mod_pos_bound x d ltac:(lia)) as Hb.

(** The clock of the scenario with another random source. *)
Definition scenario_world_other : world :=
  mkWorld (fun _ => mkTimespec 1700000000 123456789) (fun _ => Some Byte.x00).

(** The 256 bytes. *)
Definition all_bytes : list Byte.byte :=
  flat_map (fun k => match Byte.of_nat k with
                     | Some b => [b]
                     | None => []
                     end) (seq 0 256).

(** The bytes that make the loop pick letter [l] for digit character [c]. *)
Definition selecting_bytes (c l : ascii) : list Byte.byte :=
  filter (fun rnd => match encode_digit c rnd with
                     | Some l' => Ascii.eqb l' l
                     | None => false
                     end) all_bytes.

(** The other case of a letter; any other character is left alone. *)
Definition swap_case (c : ascii) : ascii :=
  let n := N_of_ascii c in
  if ((65 <=? n) && (n <=? 90))%N then ascii_of_N (n + 32)
  else if ((97 <=? n) && (n <=? 122))%N then ascii_of_N (n - 32)
  else c.

(** The digit character next to [c] in its pair: 0 and 1, 2 and 3, ... *)
Definition pair_digit (c : ascii) : ascii :=
  digit_char (Z.lxor (Z.of_N (N_of_ascii c) - 48) 1).

(** * Properties *)

(** ** Decimal digits *)

Lemma mod10_digit (v : Z) : 0 <= v mod 10 <= 9.
Proof. pose proof (Z.mod_pos_bound v 10). lia. Qed.

Lemma digit_of_digit_char (d : Z) :
  0 <= d <= 9 -> Z.of_N (N_of_ascii (digit_char d)) - 48 = d.
Proof. intros Hd. digit_cases d; reflexivity. Qed.

Lemma utoa_rev_decimal (fuel : nat) :
  forall v, Forall is_decimal (utoa_rev fuel v).
Proof.
  induction fuel as [|fuel IH]; intros v; simpl.
  - constructor.
  - constructor.
    + exists (v mod 10). split; [apply mod10_digit | reflexivity].
    + destruct (v / 10 =? 0); [constructor | apply IH].
Qed.

Lemma utoa_rev_length_le (fuel : nat) :
  forall v, (length (utoa_rev fuel v) <= fuel)%nat.
Proof.
  induction fuel as [|fuel IH]; intros v; simpl; [lia|].
  destruct (v / 10 =? 0); simpl; [lia|].
  specialize (IH (v / 10)). lia.
Qed.

Lemma utoa_rev_value (fuel : nat) :
  forall v, 0 <= v < 10 ^ Z.of_nat fuel -> value_rev (utoa_rev fuel v) = v.
Proof.
  induction fuel as [|fuel IH]; intros v Hv.
  - simpl in Hv. simpl. lia.
  - cbn [utoa_rev value_rev].
    rewrite digit_of_digit_char by apply mod10_digit.
    rewrite Nat2Z.inj_succ, Z.pow_succ_r in Hv by lia.
    destruct (Z.eqb_spec (v / 10) 0) as [E|E].
    + simpl. pose proof (Z.div_mod v 10). lia.
    + rewrite IH.
      * pose proof (Z.div_mod v 10). lia.
      * split; [apply Z.div_pos; lia|].
        apply Z.div_lt_upper_bound; lia.
Qed.

Lemma value_rev_bound (l : list ascii) :
  Forall is_decimal l -> 0 <= value_rev l < 10 ^ Z.of_nat (length l).
Proof.
  induction 1 as [|c l [d [Hd ->]] _ IH].
  - simpl. lia.
  - cbn [value_rev length]. rewrite digit_of_digit_char by assumption.
    rewrite Nat2Z.inj_succ, Z.pow_succ_r by lia. lia.
Qed.

Lemma utoa_length (v : Z) : (1 <= length (utoa v) <= 20)%nat.
Proof.
  unfold utoa. rewrite length_rev. split.
  - change 20%nat with (S 19). cbn [utoa_rev length]. lia.
  - apply utoa_rev_length_le.
Qed.

Lemma utoa_decimal (v : Z) : Forall is_decimal (utoa v).
Proof.
  unfold utoa. apply Forall_rev, utoa_rev_decimal.
Qed.

Lemma uint64_lt_pow10_20 (v : Z) :
  0 <= v < UINT64_MODULUS -> 0 <= v < 10 ^ Z.of_nat 20.
Proof.
  unfold UINT64_MODULUS. intros H.
  assert (2 ^ 64 < 10 ^ Z.of_nat 20) by reflexivity. lia.
Qed.

(** Printing is exact on the whole range of [unsigned long long]: the
    fuel of [utoa] never runs out there. *)
Lemma utoa_value (v : Z) :
  0 <= v < UINT64_MODULUS -> decimal_value (utoa v) = v.
Proof.
  intros Hv. unfold decimal_value, utoa. rewrite rev_involutive.
  apply utoa_rev_value, uint64_lt_pow10_20, Hv.
Qed.

(** A value of more than [n] digits prints as more than [n] characters. *)
Lemma utoa_long (v : Z) (n : nat) :
  0 <= v < UINT64_MODULUS -> 10 ^ Z.of_nat n <= v -> (n < length (utoa v))%nat.
Proof.
  intros Hv Hn.
  pose proof (value_rev_bound (utoa_rev 20 v) (utoa_rev_decimal 20 v)) as Hb.
  rewrite utoa_rev_value in Hb by (apply uint64_lt_pow10_20, Hv).
  unfold utoa. rewrite length_rev.
  destruct (Nat.lt_ge_cases n (length (utoa_rev 20 v))) as [|Hle]; [assumption|].
  exfalso.
  assert (10 ^ Z.of_nat (length (utoa_rev 20 v)) <= 10 ^ Z.of_nat n)
    by (apply Z.pow_le_mono_r; lia).
  lia.
Qed.

Lemma to_uint64_range (x : Z) : 0 <= to_uint64 x < UINT64_MODULUS.
Proof. unfold to_uint64, UINT64_MODULUS. apply Z.mod_pos_bound. lia. Qed.

Lemma to_uint64_small (x : Z) : 0 <= x < UINT64_MODULUS -> to_uint64 x = x.
Proof. unfold to_uint64. apply Z.mod_small. Qed.

(** ** The digit buffer *)

Lemma format_0llu_length (width v : Z) :
  0 <= width -> (Z.to_nat width <= length (format_0llu width v))%nat.
Proof.
  intros Hw. unfold format_0llu.
  destruct (Z.ltb_spec width 0) as [|_]; [lia|].
  rewrite length_app, repeat_length. lia.
Qed.

Lemma Forall_firstn_of {A} (P : A -> Prop) (n : nat) (l : list A) :
  Forall P l -> Forall P (firstn n l).
Proof.
  intros H. rewrite <- (firstn_skipn n l) in H.
  apply Forall_app in H. tauto.
Qed.

Lemma zero_is_decimal : is_decimal "0"%char.
Proof. exists 0. split; [lia | reflexivity]. Qed.

Lemma format_0llu_decimal (width v : Z) :
  0 <= width -> Forall is_decimal (format_0llu width v).
Proof.
  intros Hw. unfold format_0llu.
  destruct (Z.ltb_spec width 0) as [|_]; [lia|].
  apply Forall_app. split; [|apply utoa_decimal].
  apply Forall_forall. intros c Hc.
  apply repeat_spec in Hc. subst c. apply zero_is_decimal.
Qed.

Lemma digit_string_length (ts len : Z) :
  0 <= len <= 19 -> length (digit_string ts len) = Z.to_nat len.
Proof.
  intros Hl. unfold digit_string, snprintf_0llu.
  rewrite !length_firstn.
  pose proof (format_0llu_length len (to_uint64 ts)). lia.
Qed.

Lemma digit_string_decimal (ts len : Z) :
  0 <= len -> Forall is_decimal (digit_string ts len).
Proof.
  intros Hl. unfold digit_string, snprintf_0llu.
  apply Forall_firstn_of, Forall_firstn_of, format_0llu_decimal, Hl.
Qed.

(** ** One digit *)

Lemma byte_value_nonneg (r : Byte.byte) : 0 <= Z.of_N (Byte.to_N r).
Proof. apply N2Z.is_nonneg. Qed.

Lemma index_some_lt {A} (l : list A) (i : Z) :
  0 <= i < Z.of_nat (length l) -> exists a, index l i = Some a /\ In a l.
Proof.
  intros Hi. unfold index.
  destruct (Z.ltb_spec i 0) as [|_]; [lia|].
  destruct (nth_error l (Z.to_nat i)) as [a|] eqn:E.
  - exists a. split; [reflexivity | eapply nth_error_In, E].
  - apply nth_error_None in E. lia.
Qed.

(** [bucket_sizes] agrees with [digit_buckets]: each size is the length
    of its bucket. *)
Lemma tables_agree (d : Z) :
  0 <= d <= 9 ->
  exists bucket,
    index digit_buckets d = Some bucket /\
    index bucket_sizes d = Some (Z.of_nat (length bucket)) /\
    (0 < length bucket)%nat.
Proof.
  intros Hd.
  digit_cases d; eexists; (split; [reflexivity|]); split;
    solve [reflexivity | simpl; lia].
Qed.

Lemma encode_digit_total (c : ascii) (r : Byte.byte) :
  is_decimal c ->
  exists bucket l,
    index digit_buckets (Z.of_N (N_of_ascii c) - 48) = Some bucket /\
    encode_digit c r = Some l /\ In l bucket.
Proof.
  intros [d [Hd ->]]. unfold encode_digit.
  rewrite digit_of_digit_char by assumption.
  destruct (tables_agree d Hd) as (bucket & Eb & Es & Hpos).
  rewrite Eb, Es.
  pose proof (byte_value_nonneg r) as Hr.
  destruct (index_some_lt bucket
              (Z.rem (Z.of_N (Byte.to_N r)) (Z.of_nat (length bucket))))
    as (l & El & Hin).
  - apply Z.rem_bound_pos; lia.
  - exists bucket, l. auto.
Qed.

Lemma encode_all_total (cs : list ascii) :
  Forall is_decimal cs ->
  forall rs, length rs = length cs -> exists ls, encode_all cs rs = Some ls.
Proof.
  induction 1 as [|c cs Hc _ IH]; intros [|r rs] Hlen; try discriminate.
  - exists []. reflexivity.
  - destruct (encode_digit_total c r Hc) as (b & l & _ & El & _).
    destruct (IH rs) as [ls Els]; [simpl in Hlen; lia|].
    exists (l :: ls). simpl. rewrite El, Els. reflexivity.
Qed.

Lemma encode_all_length (cs : list ascii) :
  forall rs ls, encode_all cs rs = Some ls ->
                length ls = length cs /\ length rs = length cs.
Proof.
  induction cs as [|c cs IH]; intros [|r rs] ls H; simpl in H; try discriminate.
  - injection H as <-. split; reflexivity.
  - destruct (encode_digit c r); [|discriminate].
    destruct (encode_all cs rs) as [ls'|] eqn:E; [|discriminate].
    injection H as <-. destruct (IH _ _ E). simpl. lia.
Qed.

(** Position by position: the k-th letter is [encode_digit] of the
    k-th digit character and the k-th random byte. *)
Lemma encode_all_nth (cs : list ascii) :
  forall rs ls k c r,
    encode_all cs rs = Some ls ->
    nth_error cs k = Some c -> nth_error rs k = Some r ->
    exists l, nth_error ls k = Some l /\ encode_digit c r = Some l.
Proof.
  induction cs as [|c0 cs IH]; intros [|r0 rs] ls k c r H Hc Hr;
    simpl in H; try discriminate.
  - destruct k; discriminate.
  - destruct (encode_digit c0 r0) as [l0|] eqn:E0; [|discriminate].
    destruct (encode_all cs rs) as [ls'|] eqn:E; [|discriminate].
    injection H as <-.
    destruct k as [|k]; simpl in *.
    + injection Hc as <-. injection Hr as <-. exists l0. split; [reflexivity | assumption].
    + eapply IH; eassumption.
Qed.

(** ** The loop *)

Section Loop.

Variable w : world.
Variable digits : list ascii.
Variable half : Z.

Lemma slug_loop_step_ok n i slug st c r l :
  index digits i = Some c ->
  strong_random w (random_draws st) = Some r ->
  encode_digit c r = Some l ->
  slug_loop w (S n) i digits half slug st =
  slug_loop w n (i + 1) digits half
    ((if i =? half then slug ++ ["-"%char] else slug) ++ [l]) (advance st 1).
Proof.
  intros Hc Hr Hl. unfold encode_digit in Hl.
  cbn [slug_loop]. unfold bind at 1. unfold load at 1. rewrite Hc. unfold ret at 1.
  destruct (index bucket_sizes (Z.of_N (N_of_ascii c) - 48)) as [sz|] eqn:Es;
    [|discriminate].
  destruct (index digit_buckets (Z.of_N (N_of_ascii c) - 48)) as [b|] eqn:Eb;
    [|discriminate].
  unfold bind at 1. unfold load at 1. rewrite Es. unfold ret at 1.
  unfold bind at 1. unfold pg_strong_random. rewrite Hr.
  unfold bind at 1. unfold load at 1. rewrite Eb. unfold ret at 1.
  unfold bind at 1. unfold load at 1. rewrite Hl. unfold ret at 1.
  reflexivity.
Qed.

Lemma slug_loop_step_fail n i slug st c :
  index digits i = Some c ->
  is_decimal c ->
  strong_random w (random_draws st) = None ->
  slug_loop w (S n) i digits half slug st = (Raise random_failed, advance st 1).
Proof.
  intros Hc [d [Hd ->]] Hr.
  cbn [slug_loop]. unfold bind at 1. unfold load at 1. rewrite Hc. unfold ret at 1.
  rewrite digit_of_digit_char by assumption.
  destruct (tables_agree d Hd) as (bucket & _ & Es & _).
  unfold bind at 1. unfold load at 1. rewrite Es. unfold ret at 1.
  unfold bind at 1. unfold pg_strong_random. rewrite Hr.
  reflexivity.
Qed.

Lemma draws_are_cons d0 r rs :
  draws_are w d0 (r :: rs) ->
  strong_random w d0 = Some r /\ draws_are w (S d0) rs.
Proof.
  unfold draws_are. cbn [length seq map]. intros H.
  injection H as H1 H2. split; assumption.
Qed.

Lemma advance_advance st a b : advance (advance st a) b = advance st (a + b).
Proof. unfold advance. cbn. f_equal. lia. Qed.

(** The loop over the digit characters [cs] found at
    [digits[i ..]], all draws succeeding. *)
Lemma slug_loop_ok :
  forall cs pre post rs ls slug st,
    digits = pre ++ cs ++ post ->
    draws_are w (random_draws st) rs ->
    encode_all cs rs = Some ls ->
    slug_loop w (length cs) (Z.of_nat (length pre)) digits half slug st =
    (Ok (slug ++ assemble half (Z.of_nat (length pre)) ls),
     advance st (length cs)).
Proof.
  induction cs as [|c cs IH]; intros pre post [|r rs] ls slug st Hd Hr He;
    simpl in He; try discriminate.
  - injection He as <-. cbn. rewrite app_nil_r.
    unfold ret, advance. destruct st; reflexivity.
  - destruct (encode_digit c r) as [l|] eqn:El; [|discriminate].
    destruct (encode_all cs rs) as [ls'|] eqn:Els; [|discriminate].
    injection He as <-.
    apply draws_are_cons in Hr. destruct Hr as [Hr0 Hr].
    cbn [length].
    rewrite (slug_loop_step_ok _ _ _ _ c r l); try assumption.
    + replace (Z.of_nat (length pre) + 1) with (Z.of_nat (length (pre ++ [c])))
        by (rewrite length_app; simpl; lia).
      rewrite (IH (pre ++ [c]) post rs ls').
      * rewrite advance_advance. cbn [assemble].
        replace (Z.of_nat (length (pre ++ [c]))) with (Z.of_nat (length pre) + 1)
          by (rewrite length_app; simpl; lia).
        f_equal. f_equal.
        destruct (Z.of_nat (length pre) =? half);
          rewrite <- ?app_assoc; reflexivity.
      * rewrite Hd, <- app_assoc. reflexivity.
      * exact Hr.
      * exact Els.
    + subst digits. unfold index.
      destruct (Z.ltb_spec (Z.of_nat (length pre)) 0) as [|_]; [lia|].
      rewrite Nat2Z.id, nth_error_app2, Nat.sub_diag by lia. reflexivity.
Qed.

(** The same loop when the draw after [rs] fails: the error is raised
    at once, whatever is left to do. *)
Lemma slug_loop_fail :
  forall cs pre c post rs slug st n,
    digits = pre ++ cs ++ c :: post ->
    Forall is_decimal cs -> is_decimal c ->
    length rs = length cs ->
    draws_are w (random_draws st) rs ->
    strong_random w (length cs + random_draws st) = None ->
    slug_loop w (length cs + S n) (Z.of_nat (length pre)) digits half slug st =
    (Raise random_failed, advance st (S (length cs))).
Proof.
  induction cs as [|c0 cs IH]; intros pre c post [|r rs] slug st n Hd Hcs Hc Hlen Hr Hn;
    try discriminate.
  - cbn [length Nat.add] in *.
    apply slug_loop_step_fail with (c := c); try assumption.
    subst digits. unfold index.
    destruct (Z.ltb_spec (Z.of_nat (length pre)) 0) as [|_]; [lia|].
    cbn [app].
    rewrite Nat2Z.id, nth_error_app2, Nat.sub_diag by lia. reflexivity.
  - apply draws_are_cons in Hr. destruct Hr as [Hr0 Hr].
    apply Forall_cons_iff in Hcs. destruct Hcs as [Hc0 Hcs'].
    destruct (encode_digit_total c0 r Hc0) as (b & l & _ & El & _).
    cbn [length Nat.add].
    rewrite (slug_loop_step_ok _ _ _ _ c0 r l); try assumption.
    + replace (Z.of_nat (length pre) + 1) with (Z.of_nat (length (pre ++ [c0])))
        by (rewrite length_app; simpl; lia).
      rewrite (IH (pre ++ [c0]) c post rs); try assumption.
      * rewrite advance_advance. reflexivity.
      * rewrite Hd, <- app_assoc. reflexivity.
      * simpl in Hlen. lia.
      * cbn [advance random_draws]. rewrite <- Hn. f_equal. simpl. lia.
    + rewrite Hd. unfold index.
      destruct (Z.ltb_spec (Z.of_nat (length pre)) 0) as [|_]; [lia|].
      rewrite Nat2Z.id, nth_error_app2, Nat.sub_diag by lia. reflexivity.
Qed.

End Loop.

(** ** The assembled slug *)

Lemma assemble_after (half : Z) (ls : list ascii) :
  forall i, half < i -> assemble half i ls = ls.
Proof.
  induction ls as [|l ls IH]; intros i Hi; cbn [assemble]; [reflexivity|].
  destruct (Z.eqb_spec i half) as [|_]; [lia|].
  rewrite IH by lia. reflexivity.
Qed.

Lemma assemble_split (half : Z) (ls : list ascii) :
  forall i,
    i <= half -> (Z.to_nat (half - i) < length ls)%nat ->
    assemble half i ls =
    firstn (Z.to_nat (half - i)) ls ++ "-"%char :: skipn (Z.to_nat (half - i)) ls.
Proof.
  induction ls as [|l ls IH]; intros i Hi Hk; cbn [length] in Hk; [lia|].
  cbn [assemble].
  destruct (Z.eqb_spec i half) as [->|Hne].
  - rewrite Z.sub_diag. cbn. rewrite assemble_after by lia. reflexivity.
  - replace (Z.to_nat (half - i)) with (S (Z.to_nat (half - (i + 1)))) in * by lia.
    cbn [firstn skipn app]. rewrite IH by lia. reflexivity.
Qed.

Lemma index_In {A} (l : list A) (i : Z) (a : A) : index l i = Some a -> In a l.
Proof.
  unfold index. destruct (i <? 0); [discriminate|]. apply nth_error_In.
Qed.

Lemma encode_digit_letter (c : ascii) (r : Byte.byte) (l : ascii) :
  encode_digit c r = Some l -> is_letter l.
Proof.
  unfold encode_digit, is_letter, all_letters. intros H.
  destruct (index bucket_sizes _); [|discriminate].
  destruct (index digit_buckets _) as [b|] eqn:Eb; [|discriminate].
  apply in_concat. exists b. split; eapply index_In; eassumption.
Qed.

Lemma encode_all_letters (cs : list ascii) :
  forall rs ls, encode_all cs rs = Some ls -> Forall is_letter ls.
Proof.
  induction cs as [|c cs IH]; intros [|r rs] ls H; simpl in H; try discriminate.
  - injection H as <-. constructor.
  - destruct (encode_digit c r) as [l|] eqn:El; [|discriminate].
    destruct (encode_all cs rs) as [ls'|] eqn:E; [|discriminate].
    injection H as <-. constructor; [eapply encode_digit_letter, El | eapply IH, E].
Qed.

Lemma hyphen_not_letter : ~ is_letter "-"%char.
Proof.
  unfold is_letter, all_letters. cbn. intros H.
  repeat (destruct H as [H|H]; [discriminate H|]). exact H.
Qed.

Lemma NUL_not_letter : ~ is_letter NUL.
Proof.
  unfold is_letter, all_letters. cbn. intros H.
  repeat (destruct H as [H|H]; [discriminate H|]). exact H.
Qed.

Lemma cstring_to_text_terminated (s : list ascii) :
  Forall (fun c => c <> NUL) s -> cstring_to_text (s ++ [NUL]) = s.
Proof.
  induction 1 as [|c s Hc _ IH]; cbn [app cstring_to_text].
  - reflexivity.
  - destruct (Ascii.eqb_spec c NUL) as [|_]; [contradiction|].
    rewrite IH. reflexivity.
Qed.

(** ** The text of a slug *)

Lemma slug_text_length (half : nat) (ls : list ascii) :
  length (slug_text half ls) = S (length ls).
Proof.
  unfold slug_text. rewrite length_app. cbn [length].
  rewrite length_firstn, length_skipn. lia.
Qed.

Lemma slug_text_hyphen (half : nat) (ls : list ascii) :
  (half <= length ls)%nat ->
  nth_error (slug_text half ls) half = Some "-"%char.
Proof.
  intros H. unfold slug_text.
  rewrite nth_error_app2 by (rewrite length_firstn; lia).
  rewrite length_firstn, Nat.min_l, Nat.sub_diag by exact H. reflexivity.
Qed.

Lemma slug_text_letter (half : nat) (ls : list ascii) (i : nat) :
  (half <= length ls)%nat ->
  nth_error (slug_text half ls) (output_index half i) = nth_error ls i.
Proof.
  intros H. unfold slug_text, output_index.
  destruct (Nat.ltb_spec i half) as [Hi|Hi].
  - rewrite nth_error_app1 by (rewrite length_firstn; lia).
    rewrite nth_error_firstn.
    destruct (Nat.ltb_spec i half); [reflexivity | lia].
  - rewrite nth_error_app2 by (rewrite length_firstn; lia).
    rewrite length_firstn, Nat.min_l by exact H.
    replace (S i - half)%nat with (S (i - half)) by lia.
    cbn [nth_error]. rewrite nth_error_skipn. f_equal. lia.
Qed.

Lemma letters_no_hyphen (ls : list ascii) :
  Forall is_letter ls -> count_occ ascii_dec ls "-"%char = 0%nat.
Proof.
  intros H. apply count_occ_not_In. intros Hin.
  rewrite Forall_forall in H. exact (hyphen_not_letter (H _ Hin)).
Qed.

Lemma slug_text_one_hyphen (half : nat) (ls : list ascii) :
  Forall is_letter ls ->
  count_occ ascii_dec (slug_text half ls) "-"%char = 1%nat.
Proof.
  intros H. unfold slug_text.
  rewrite <- (firstn_skipn half ls) in H. apply Forall_app in H.
  destruct H as [H1 H2].
  rewrite count_occ_app, count_occ_cons_eq by reflexivity.
  rewrite !letters_no_hyphen by assumption. reflexivity.
Qed.

(** What [cstring_to_text] finds in the buffer the loop leaves. *)
Lemma assemble_text (len : Z) (ls : list ascii) :
  1 <= len ->
  length ls = Z.to_nat len ->
  Forall is_letter ls ->
  cstring_to_text (assemble (Z.quot len 2) 0 ls ++ [NUL]) =
  slug_text (Z.to_nat (len / 2)) ls.
Proof.
  intros Hlen Hls Hlet.
  rewrite Z.quot_div_nonneg by lia.
  assert (Hhalf : 0 <= len / 2 < len)
    by (split; [apply Z.div_pos; lia | apply Z.div_lt_upper_bound; lia]).
  rewrite assemble_split by lia.
  rewrite Z.sub_0_r. fold (slug_text (Z.to_nat (len / 2)) ls).
  apply cstring_to_text_terminated.
  unfold slug_text.
  rewrite <- (firstn_skipn (Z.to_nat (len / 2)) ls) in Hlet.
  apply Forall_app in Hlet. destruct Hlet as [H1 H2].
  apply Forall_app. split; [|constructor; [discriminate|]];
    (eapply Forall_impl; [|eassumption]);
    intros c Hc ->; exact (NUL_not_letter Hc).
Qed.

(** ** The three functions, run *)

Lemma get_timestamp_value_run (w : world) (precision : Z) (st : state) :
  get_timestamp_value w precision st =
  (Ok (timestamp_of (realtime w (clock_reads st)) precision),
   mkState (S (clock_reads st)) (random_draws st)
           (select_arm precision :: arms_taken st)).
Proof.
  unfold get_timestamp_value, timestamp_of, bind, clock_gettime, enter_arm.
  destruct (select_arm precision); reflexivity.
Qed.

Lemma valid_length_cases (len : Z) :
  valid_length len = true <-> len = 10 \/ len = 13 \/ len = 16 \/ len = 19.
Proof.
  unfold valid_length.
  destruct (Z.eqb_spec len 10), (Z.eqb_spec len 13),
           (Z.eqb_spec len 16), (Z.eqb_spec len 19); cbn; split; intros H;
    try reflexivity; try discriminate; try lia.
Qed.

Lemma timestamp_to_slug_ok (w : world) (ts len : Z) (rs : list Byte.byte)
      (st : state) :
  0 <= len <= 19 ->
  length rs = Z.to_nat len ->
  draws_are w (random_draws st) rs ->
  exists ls,
    encode_all (digit_string ts len) rs = Some ls /\
    timestamp_to_slug w ts len st =
    (Ok (assemble (Z.quot len 2) 0 ls ++ [NUL]), advance st (Z.to_nat len)).
Proof.
  intros Hlen Hrs Hdraws.
  pose proof (digit_string_length ts len Hlen) as Hcs.
  destruct (encode_all_total (digit_string ts len)
              (digit_string_decimal ts len (proj1 Hlen)) rs) as [ls Els];
    [lia|].
  exists ls. split; [exact Els|].
  unfold timestamp_to_slug, bind.
  rewrite <- Hcs.
  rewrite (slug_loop_ok w _ (Z.quot len 2) (digit_string ts len) []
             (skipn (Z.to_nat len) (snprintf_0llu 20 len (to_uint64 ts)))
             rs ls [] st); try assumption.
  - reflexivity.
  - unfold digit_string. cbn [app]. rewrite firstn_skipn. reflexivity.
Qed.

Lemma snprintf_0llu_decimal (size : nat) (width v : Z) :
  0 <= width -> Forall is_decimal (snprintf_0llu size width v).
Proof.
  intros Hw. apply Forall_firstn_of, format_0llu_decimal, Hw.
Qed.

Lemma snprintf_0llu_length (width v : Z) :
  0 <= width <= 19 -> (Z.to_nat width <= length (snprintf_0llu 20 width v))%nat.
Proof.
  intros Hw. unfold snprintf_0llu. rewrite length_firstn.
  pose proof (format_0llu_length width v). lia.
Qed.

Lemma timestamp_to_slug_fail (w : world) (ts len : Z) (rs : list Byte.byte)
      (st : state) :
  0 <= len <= 19 ->
  (length rs < Z.to_nat len)%nat ->
  draws_are w (random_draws st) rs ->
  strong_random w (length rs + random_draws st) = None ->
  timestamp_to_slug w ts len st =
  (Raise random_failed, advance st (S (length rs))).
Proof.
  intros Hlen Hp Hdraws Hnone.
  pose proof (snprintf_0llu_length len (to_uint64 ts) Hlen) as Hbuf.
  pose proof (snprintf_0llu_decimal 20 len (to_uint64 ts) (proj1 Hlen)) as Hdec.
  destruct (nth_error (snprintf_0llu 20 len (to_uint64 ts)) (length rs))
    as [c|] eqn:Ec; [|apply nth_error_None in Ec; lia].
  apply nth_error_split in Ec. destruct Ec as (cs & post & Hd & Hcs).
  rewrite Hd in Hdec. apply Forall_app in Hdec. destruct Hdec as [Hdcs Hdc].
  apply Forall_cons_iff in Hdc. destruct Hdc as [Hdc _].
  unfold timestamp_to_slug, bind.
  replace (Z.to_nat len) with (length cs + S (Z.to_nat len - length cs - 1))%nat
    by lia.
  rewrite (slug_loop_fail w _ (Z.quot len 2) cs [] c post rs [] st).
  - rewrite Hcs. reflexivity.
  - exact Hd.
  - exact Hdcs.
  - exact Hdc.
  - congruence.
  - exact Hdraws.
  - rewrite Hcs. exact Hnone.
Qed.

Lemma draws_are_snoc (w : world) (d0 : nat) (rs : list Byte.byte) (r : Byte.byte) :
  draws_are w d0 rs ->
  strong_random w (length rs + d0) = Some r ->
  draws_are w d0 (rs ++ [r]).
Proof.
  unfold draws_are. intros H Hr.
  rewrite length_app. cbn [length]. rewrite Nat.add_1_r, seq_S, !map_app, H.
  cbn [map]. rewrite (Nat.add_comm d0), Hr. reflexivity.
Qed.

(** Either the next [n] draws all succeed, or there is a first one that
    fails. *)
Lemma draws_dec (w : world) (d0 n : nat) :
  (exists rs, length rs = n /\ draws_are w d0 rs) \/
  (exists rs, (length rs < n)%nat /\ draws_are w d0 rs /\
              strong_random w (length rs + d0) = None).
Proof.
  induction n as [|n IH].
  - left. exists []. split; reflexivity.
  - destruct IH as [(rs & Hl & Hd) | (rs & Hl & Hd & Hn)].
    + destruct (strong_random w (length rs + d0)) as [r|] eqn:Er.
      * left. exists (rs ++ [r]). split.
        -- rewrite length_app. simpl. lia.
        -- apply draws_are_snoc; assumption.
      * right. exists rs. repeat split; try assumption. lia.
    + right. exists rs. repeat split; try assumption. lia.
Qed.

Lemma draws_are_nth (w : world) (d0 : nat) (rs : list Byte.byte) (k : nat) :
  draws_are w d0 rs -> (k < length rs)%nat ->
  strong_random w (k + d0) = nth_error rs k.
Proof.
  unfold draws_are. intros H Hk.
  assert (E : nth_error (map (strong_random w) (seq d0 (length rs))) k =
              nth_error (map Some rs) k) by (rewrite H; reflexivity).
  rewrite !nth_error_map in E.
  rewrite nth_error_seq in E.
  destruct (Nat.ltb_spec k (length rs)) as [_|]; [|lia].
  cbn in E. destruct (nth_error rs k) as [r|] eqn:Er.
  - cbn in E. injection E as E. rewrite Nat.add_comm. exact E.
  - apply nth_error_None in Er. lia.
Qed.

(** ** gen_unique_slug, run from the initial state *)

Lemma gen_unique_slug_invalid (w : world) (arg0 : option Z) (st : state) :
  valid_length (requested_length arg0) = false ->
  gen_unique_slug w arg0 st = (Raise invalid_length_error, st).
Proof.
  intros H. unfold gen_unique_slug, bind. fold (requested_length arg0).
  unfold valid_length in H. apply negb_false_iff in H. rewrite H.
  reflexivity.
Qed.

Lemma gen_unique_slug_valid (w : world) (arg0 : option Z) (st : state) :
  valid_length (requested_length arg0) = true ->
  gen_unique_slug w arg0 st =
  (ts <- get_timestamp_value w (requested_length arg0) ;;
   slug <- timestamp_to_slug w ts (requested_length arg0) ;;
   ret (cstring_to_text slug)) st.
Proof.
  intros H. unfold gen_unique_slug. fold (requested_length arg0).
  unfold valid_length in H. apply negb_true_iff in H.
  unfold bind at 1. rewrite H. reflexivity.
Qed.

Lemma valid_length_range (len : Z) : valid_length len = true -> 10 <= len <= 19.
Proof. intros H. apply valid_length_cases in H. lia. Qed.

Lemma gen_unique_slug_ok (w : world) (arg0 : option Z) (rs : list Byte.byte) :
  let len := requested_length arg0 in
  valid_length len = true ->
  length rs = Z.to_nat len ->
  draws_are w 0 rs ->
  exists ls,
    encode_all (digit_string (call_timestamp w len) len) rs = Some ls /\
    run (gen_unique_slug w arg0) =
    (Ok (slug_text (Z.to_nat (len / 2)) ls),
     mkState 1 (Z.to_nat len) [select_arm len]).
Proof.
  intros len Hv Hrs Hdraws.
  pose proof (valid_length_range len Hv) as Hrange.
  unfold run. rewrite gen_unique_slug_valid by exact Hv.
  fold len. unfold bind at 1. rewrite get_timestamp_value_run.
  cbn [clock_reads random_draws arms_taken initial_state].
  fold (call_timestamp w len).
  destruct (timestamp_to_slug_ok w (call_timestamp w len) len rs
              (mkState 1 0 [select_arm len])) as (ls & Els & Hrun);
    [lia | assumption | assumption |].
  exists ls. split; [exact Els|].
  unfold bind. rewrite Hrun. unfold ret, advance.
  cbn [clock_reads random_draws arms_taken]. rewrite Nat.add_0_r.
  destruct (encode_all_length _ _ _ Els) as [Hls _].
  rewrite digit_string_length in Hls by lia.
  rewrite assemble_text; [reflexivity | lia | exact Hls |].
  exact (encode_all_letters _ _ _ Els).
Qed.

Lemma gen_unique_slug_random_fail (w : world) (arg0 : option Z)
      (rs : list Byte.byte) :
  let len := requested_length arg0 in
  valid_length len = true ->
  (length rs < Z.to_nat len)%nat ->
  draws_are w 0 rs ->
  strong_random w (length rs) = None ->
  run (gen_unique_slug w arg0) =
  (Raise random_failed, mkState 1 (S (length rs)) [select_arm len]).
Proof.
  intros len Hv Hrs Hdraws Hnone.
  pose proof (valid_length_range len Hv) as Hrange.
  unfold run. rewrite gen_unique_slug_valid by exact Hv.
  fold len. unfold bind at 1. rewrite get_timestamp_value_run.
  cbn [clock_reads random_draws arms_taken initial_state].
  unfold bind.
  rewrite (timestamp_to_slug_fail w _ len rs); try assumption; try lia.
  - unfold advance. cbn. rewrite Nat.add_0_r. reflexivity.
  - cbn. rewrite Nat.add_0_r. exact Hnone.
Qed.

(** ** What a call returns *)

Lemma returns_unique {A} (m : M A) (a b : A) :
  returns m a -> returns m b -> a = b.
Proof. intros [s1 H1] [s2 H2]. congruence. Qed.

Lemma returns_not_raises {A} (m : M A) (a : A) (e : pg_error) :
  returns m a -> raises m e -> False.
Proof. intros [s1 H1] [s2 H2]. congruence. Qed.

Lemma timestamp_to_slug_returns (w : world) (ts len : Z) (rs : list Byte.byte) :
  valid_length len = true ->
  length rs = Z.to_nat len ->
  draws_are w 0 rs ->
  exists ls buf,
    encode_all (digit_string ts len) rs = Some ls /\
    returns (timestamp_to_slug w ts len) buf /\
    cstring_to_text buf = slug_text (Z.to_nat (len / 2)) ls.
Proof.
  intros Hv Hrs Hdraws.
  pose proof (valid_length_range len Hv) as Hrange.
  destruct (timestamp_to_slug_ok w ts len rs initial_state)
    as (ls & Els & Hrun); [lia | assumption | assumption |].
  exists ls, (assemble (Z.quot len 2) 0 ls ++ [NUL]).
  split; [exact Els|]. split; [eexists; exact Hrun|].
  destruct (encode_all_length _ _ _ Els) as [Hls _].
  rewrite digit_string_length in Hls by lia.
  apply assemble_text; [lia | exact Hls | exact (encode_all_letters _ _ _ Els)].
Qed.

Lemma gen_unique_slug_returns (w : world) (arg0 : option Z) (rs : list Byte.byte) :
  let len := requested_length arg0 in
  valid_length len = true ->
  length rs = Z.to_nat len ->
  draws_are w 0 rs ->
  exists ls,
    encode_all (digit_string (call_timestamp w len) len) rs = Some ls /\
    returns (gen_unique_slug w arg0) (slug_text (Z.to_nat (len / 2)) ls).
Proof.
  intros len Hv Hrs Hdraws.
  destruct (gen_unique_slug_ok w arg0 rs Hv Hrs Hdraws) as (ls & Els & Hrun).
  exists ls. split; [exact Els | eexists; exact Hrun].
Qed.

(** A call with a valid length that returns has drawn one byte per
    digit. *)
Lemma gen_unique_slug_returned (w : world) (arg0 : option Z) (slug : list ascii) :
  let len := requested_length arg0 in
  valid_length len = true ->
  returns (gen_unique_slug w arg0) slug ->
  exists rs, length rs = Z.to_nat len /\ draws_are w 0 rs.
Proof.
  intros len Hv Hret.
  destruct (draws_dec w 0 (Z.to_nat len)) as [(rs & Hl & Hd) | (rs & Hl & Hd & Hn)].
  - exists rs. split; assumption.
  - exfalso. rewrite Nat.add_0_r in Hn.
    eapply returns_not_raises; [exact Hret|].
    eexists. exact (gen_unique_slug_random_fail w arg0 rs Hv Hl Hd Hn).
Qed.

Lemma timestamp_to_slug_returned (w : world) (ts len : Z) (buf : list ascii) :
  valid_length len = true ->
  returns (timestamp_to_slug w ts len) buf ->
  exists rs, length rs = Z.to_nat len /\ draws_are w 0 rs.
Proof.
  intros Hv Hret.
  pose proof (valid_length_range len Hv) as Hrange.
  destruct (draws_dec w 0 (Z.to_nat len)) as [(rs & Hl & Hd) | (rs & Hl & Hd & Hn)].
  - exists rs. split; assumption.
  - exfalso.
    eapply returns_not_raises; [exact Hret|].
    eexists. apply (timestamp_to_slug_fail w ts len rs initial_state);
      try assumption; lia.
Qed.

Lemma gen_unique_slug_shape (w : world) (arg0 : option Z) (slug : list ascii) :
  let len := requested_length arg0 in
  valid_length len = true ->
  returns (gen_unique_slug w arg0) slug ->
  exists rs ls,
    length rs = Z.to_nat len /\ draws_are w 0 rs /\
    encode_all (digit_string (call_timestamp w len) len) rs = Some ls /\
    slug = slug_text (Z.to_nat (len / 2)) ls.
Proof.
  intros len Hv Hret.
  destruct (gen_unique_slug_returned w arg0 slug Hv Hret) as (rs & Hl & Hd).
  destruct (gen_unique_slug_returns w arg0 rs Hv Hl Hd) as (ls & Els & Hret').
  exists rs, ls. repeat split; try assumption.
  exact (returns_unique _ _ _ Hret Hret').
Qed.

Lemma timestamp_to_slug_shape (w : world) (ts len : Z) (buf : list ascii) :
  valid_length len = true ->
  returns (timestamp_to_slug w ts len) buf ->
  exists rs ls,
    length rs = Z.to_nat len /\ draws_are w 0 rs /\
    encode_all (digit_string ts len) rs = Some ls /\
    cstring_to_text buf = slug_text (Z.to_nat (len / 2)) ls.
Proof.
  intros Hv Hret.
  destruct (timestamp_to_slug_returned w ts len buf Hv Hret) as (rs & Hl & Hd).
  destruct (timestamp_to_slug_returns w ts len rs Hv Hl Hd)
    as (ls & buf' & Els & Hret' & Htext).
  exists rs, ls. repeat split; try assumption.
  rewrite (returns_unique _ _ _ Hret Hret'). exact Htext.
Qed.

(** The loop stays inside [slug[22]]: with the NUL, at most 21
    characters are written. *)
Lemma slug_buffer_fits (w : world) (ts len : Z) (buf : list ascii) :
  valid_length len = true ->
  returns (timestamp_to_slug w ts len) buf ->
  (length buf <= 22)%nat.
Proof.
  intros Hv Hret. pose proof (valid_length_range len Hv) as Hrange.
  destruct (timestamp_to_slug_returned w ts len buf Hv Hret) as (rs & Hl & Hd).
  destruct (timestamp_to_slug_ok w ts len rs initial_state)
    as (ls & Els & Hrun); [lia | assumption | assumption |].
  assert (Hbuf : returns (timestamp_to_slug w ts len)
                         (assemble (Z.quot len 2) 0 ls ++ [NUL]))
    by (eexists; exact Hrun).
  rewrite (returns_unique _ _ _ Hret Hbuf).
  destruct (encode_all_length _ _ _ Els) as [Hls _].
  rewrite digit_string_length in Hls by lia.
  rewrite Z.quot_div_nonneg by lia.
  assert (Hhalf : 0 <= len / 2 < len)
    by (split; [apply Z.div_pos; lia | apply Z.div_lt_upper_bound; lia]).
  rewrite assemble_split by lia.
  rewrite length_app, Z.sub_0_r.
  fold (slug_text (Z.to_nat (len / 2)) ls). rewrite slug_text_length.
  cbn [length]. lia.
Qed.

(** The letters of a slug are as many as the digits. *)
Lemma letters_length (ts len : Z) (rs : list Byte.byte) (ls : list ascii) :
  valid_length len = true ->
  encode_all (digit_string ts len) rs = Some ls ->
  length ls = Z.to_nat len.
Proof.
  intros Hv Els. pose proof (valid_length_range len Hv).
  destruct (encode_all_length _ _ _ Els) as [Hls _].
  rewrite digit_string_length in Hls by lia. exact Hls.
Qed.

(** * The claims *)

(** C1. For every valid length L in {10, 13, 16, 19} and every
    timestamp value, also one whose decimal representation needs more
    than L digits, the string [gen_unique_slug] returns for L has
    length exactly L + 1.  Stated for every call that returns, for the
    text in the buffer [timestamp_to_slug] fills at any timestamp, and
    with the fact that the call does return when the L random draws
    succeed. *)
Theorem C1_slug_length (w : world) (L : Z) :
  valid_length L = true ->
  (forall slug, returns (gen_unique_slug w (Some L)) slug ->
                Z.of_nat (length slug) = L + 1) /\
  (forall ts buf, returns (timestamp_to_slug w ts L) buf ->
                  Z.of_nat (length (cstring_to_text buf)) = L + 1) /\
  (forall rs, length rs = Z.to_nat L -> draws_are w 0 rs ->
              (exists slug, returns (gen_unique_slug w (Some L)) slug) /\
              (forall ts, exists buf, returns (timestamp_to_slug w ts L) buf)).
Proof.
  intros Hv. pose proof (valid_length_range L Hv) as Hrange.
  split; [|split].
  - intros slug Hret.
    destruct (gen_unique_slug_shape w (Some L) slug Hv Hret)
      as (rs & ls & _ & _ & Els & ->).
    rewrite slug_text_length. cbn [requested_length] in Els.
    rewrite (letters_length _ _ _ _ Hv Els). lia.
  - intros ts buf Hret.
    destruct (timestamp_to_slug_shape w ts L buf Hv Hret)
      as (rs & ls & _ & _ & Els & ->).
    rewrite slug_text_length, (letters_length _ _ _ _ Hv Els). lia.
  - intros rs Hl Hd. split.
    + destruct (gen_unique_slug_returns w (Some L) rs Hv Hl Hd) as (ls & _ & Hret).
      eexists. exact Hret.
    + intros ts.
      destruct (timestamp_to_slug_returns w ts L rs Hv Hl Hd)
        as (ls & buf & _ & Hret & _).
      exists buf. exact Hret.
Qed.

Lemma C1_slug_length_witness :
  valid_length 19 = true /\
  draws_are far_future_world 0 (repeat Byte.x2a 19) /\
  exists slug, returns (gen_unique_slug far_future_world (Some 19)) slug /\
               Z.of_nat (length slug) = 19 + 1.
Proof.
  split; [reflexivity|]. split; [reflexivity|].
  destruct (C1_slug_length far_future_world 19 eq_refl) as (Hlen & _ & Hex).
  destruct (Hex (repeat Byte.x2a 19) eq_refl eq_refl) as [[slug Hret] _].
  exists slug. split; [exact Hret | exact (Hlen slug Hret)].
Defined.

(** The text of a slug has its only hyphen at [half], inside. *)
Lemma slug_text_separator (half : nat) (ls : list ascii) :
  Forall is_letter ls ->
  (0 < half < length ls)%nat ->
  let slug := slug_text half ls in
  count_occ ascii_dec slug "-"%char = 1%nat /\
  nth_error slug half = Some "-"%char /\
  (0 < half < length slug - 1)%nat /\
  nth_error slug 0 <> Some "-"%char /\
  nth_error slug (length slug - 1) <> Some "-"%char.
Proof.
  intros Hlet Hhalf slug. subst slug.
  assert (Hnot : forall i, nth_error ls i <> Some "-"%char).
  { intros i Hi. apply nth_error_In in Hi. rewrite Forall_forall in Hlet.
    exact (hyphen_not_letter (Hlet _ Hi)). }
  split; [apply slug_text_one_hyphen, Hlet|].
  split; [apply slug_text_hyphen; lia|].
  rewrite slug_text_length.
  split; [lia|]. split.
  - replace 0%nat with (output_index half 0)
      by (unfold output_index; destruct (Nat.ltb_spec 0 half); [reflexivity|lia]).
    rewrite slug_text_letter by lia. apply Hnot.
  - replace (S (length ls) - 1)%nat with (output_index half (length ls - 1)).
    + rewrite slug_text_letter by lia. apply Hnot.
    + unfold output_index.
      destruct (Nat.ltb_spec (length ls - 1) half); lia.
Qed.

(** C2. For every valid length L and every timestamp, the output
    contains the separator '-' exactly once, at output index L/2
    (integer division), and neither as its first nor as its last
    character. *)
Theorem C2_separator (w : world) (L : Z) :
  valid_length L = true ->
  (forall slug, returns (gen_unique_slug w (Some L)) slug ->
     count_occ ascii_dec slug "-"%char = 1%nat /\
     nth_error slug (Z.to_nat (L / 2)) = Some "-"%char /\
     (0 < Z.to_nat (L / 2) < length slug - 1)%nat /\
     nth_error slug 0 <> Some "-"%char /\
     nth_error slug (length slug - 1) <> Some "-"%char) /\
  (forall ts buf, returns (timestamp_to_slug w ts L) buf ->
     let slug := cstring_to_text buf in
     count_occ ascii_dec slug "-"%char = 1%nat /\
     nth_error slug (Z.to_nat (L / 2)) = Some "-"%char /\
     (0 < Z.to_nat (L / 2) < length slug - 1)%nat /\
     nth_error slug 0 <> Some "-"%char /\
     nth_error slug (length slug - 1) <> Some "-"%char) /\
  (forall rs, length rs = Z.to_nat L -> draws_are w 0 rs ->
     exists slug, returns (gen_unique_slug w (Some L)) slug).
Proof.
  intros Hv.
  assert (Hhalf : forall n, n = Z.to_nat L -> (0 < Z.to_nat (L / 2) < n)%nat).
  { intros n ->. apply valid_length_cases in Hv.
    destruct Hv as [-> | [-> | [-> | ->]]]; cbn; lia. }
  split; [|split].
  - intros slug Hret.
    destruct (gen_unique_slug_shape w (Some L) slug Hv Hret)
      as (rs & ls & _ & _ & Els & ->).
    cbn [requested_length] in *.
    apply slug_text_separator.
    + exact (encode_all_letters _ _ _ Els).
    + apply Hhalf. exact (letters_length _ _ _ _ Hv Els).
  - intros ts buf Hret.
    destruct (timestamp_to_slug_shape w ts L buf Hv Hret)
      as (rs & ls & _ & _ & Els & ->).
    apply slug_text_separator.
    + exact (encode_all_letters _ _ _ Els).
    + apply Hhalf. exact (letters_length _ _ _ _ Hv Els).
  - intros rs Hl Hd.
    destruct (gen_unique_slug_returns w (Some L) rs Hv Hl Hd) as (ls & _ & Hret).
    eexists. exact Hret.
Qed.

Lemma C2_separator_witness :
  valid_length 13 = true /\
  draws_are far_future_world 0 (repeat Byte.x2a 13) /\
  exists slug, returns (gen_unique_slug far_future_world (Some 13)) slug /\
               count_occ ascii_dec slug "-"%char = 1%nat /\
               nth_error slug 6 = Some "-"%char.
Proof.
  split; [reflexivity|]. split; [reflexivity|].
  destruct (C2_separator far_future_world 13 eq_refl) as (Hsep & _ & Hex).
  destruct (Hex (repeat Byte.x2a 13) eq_refl eq_refl) as [slug Hret].
  exists slug. split; [exact Hret|].
  destruct (Hsep slug Hret) as (H1 & H2 & _). split; [exact H1 | exact H2].
Defined.

(** ** The bucket table of the specification *)

Lemma tables_are_spec :
  digit_buckets = map spec_DigitBucket decimal_digits /\
  bucket_sizes = map spec_bucket_size decimal_digits.
Proof. split; reflexivity. Qed.

Lemma tables_lookup (d : Z) :
  0 <= d <= 9 ->
  index digit_buckets d = Some (spec_DigitBucket d) /\
  index bucket_sizes d = Some (spec_bucket_size d) /\
  0 < spec_bucket_size d.
Proof.
  intros Hd. digit_cases d; repeat split; reflexivity.
Qed.

(** The letter of one digit, by the table of the specification. *)
Lemma encode_digit_by_table (c : ascii) (r : Byte.byte) (l : ascii) :
  is_decimal c ->
  encode_digit c r = Some l ->
  let d := Z.of_N (N_of_ascii c) - 48 in
  0 <= d <= 9 /\
  nth_error (spec_DigitBucket d)
            (Z.to_nat (Z.of_N (Byte.to_N r) mod spec_bucket_size d)) = Some l.
Proof.
  intros [d' [Hd ->]] He d. subst d. unfold encode_digit in He.
  rewrite digit_of_digit_char in * by assumption.
  split; [exact Hd|].
  destruct (tables_lookup d' Hd) as (Eb & Es & Hpos).
  rewrite Eb, Es in He.
  pose proof (byte_value_nonneg r) as Hr.
  rewrite Z.rem_mod_nonneg in He by lia.
  unfold index in He.
  destruct (Z.ltb_spec (Z.of_N (Byte.to_N r) mod spec_bucket_size d') 0) as [Hneg|_].
  - pose proof (Z.mod_pos_bound (Z.of_N (Byte.to_N r)) (spec_bucket_size d') Hpos). lia.
  - exact He.
Qed.

(** C3. For every position i of the zero-padded digit string, with
    digit d there, and the random byte r drawn for that position, the
    output character of that position is DigitBucket[d][r mod size(d)],
    the ten buckets and their sizes being those of the table of the
    specification, in its order. *)
Theorem C3_bucket_selection (w : world) (L : Z) (rs : list Byte.byte) :
  valid_length L = true ->
  length rs = Z.to_nat L ->
  draws_are w 0 rs ->
  (digit_buckets = map spec_DigitBucket decimal_digits /\
   bucket_sizes = map spec_bucket_size decimal_digits) /\
  (exists slug,
     returns (gen_unique_slug w (Some L)) slug /\
     forall i c r,
       nth_error (digit_string (call_timestamp w L) L) i = Some c ->
       strong_random w i = Some r ->
       let d := Z.of_N (N_of_ascii c) - 48 in
       0 <= d <= 9 /\
       exists ch,
         nth_error slug (output_index (Z.to_nat (L / 2)) i) = Some ch /\
         nth_error (spec_DigitBucket d)
           (Z.to_nat (Z.of_N (Byte.to_N r) mod spec_bucket_size d)) = Some ch) /\
  (forall ts, exists buf,
     returns (timestamp_to_slug w ts L) buf /\
     forall i c r,
       nth_error (digit_string ts L) i = Some c ->
       strong_random w i = Some r ->
       let d := Z.of_N (N_of_ascii c) - 48 in
       0 <= d <= 9 /\
       exists ch,
         nth_error (cstring_to_text buf) (output_index (Z.to_nat (L / 2)) i) = Some ch /\
         nth_error (spec_DigitBucket d)
           (Z.to_nat (Z.of_N (Byte.to_N r) mod spec_bucket_size d)) = Some ch).
Proof.
  intros Hv Hl Hd. pose proof (valid_length_range L Hv) as Hrange.
  assert (Hpos : forall ts ls i c r,
             encode_all (digit_string ts L) rs = Some ls ->
             nth_error (digit_string ts L) i = Some c ->
             strong_random w i = Some r ->
             0 <= Z.of_N (N_of_ascii c) - 48 <= 9 /\
             exists ch,
               nth_error (slug_text (Z.to_nat (L / 2)) ls)
                         (output_index (Z.to_nat (L / 2)) i) = Some ch /\
               nth_error (spec_DigitBucket (Z.of_N (N_of_ascii c) - 48))
                 (Z.to_nat (Z.of_N (Byte.to_N r)
                            mod spec_bucket_size (Z.of_N (N_of_ascii c) - 48)))
               = Some ch).
  { intros ts ls i c r Els Hc Hr.
    assert (Hi : (i < Z.to_nat L)%nat).
    { rewrite <- (digit_string_length ts L) by lia.
      apply nth_error_Some. congruence. }
    assert (Hri : nth_error rs i = Some r).
    { rewrite <- (draws_are_nth w 0 rs i Hd) by lia.
      rewrite Nat.add_0_r. exact Hr. }
    destruct (encode_all_nth _ _ _ _ _ _ Els Hc Hri) as (l & Hl1 & Hl2).
    assert (Hdec : is_decimal c).
    { assert (HL : 0 <= L) by lia.
      pose proof (digit_string_decimal ts L HL) as HF.
      rewrite Forall_forall in HF. apply HF. eapply nth_error_In, Hc. }
    destruct (encode_digit_by_table c r l Hdec Hl2) as [Hd9 Hnth].
    split; [exact Hd9|]. exists l. split; [|exact Hnth].
    rewrite slug_text_letter; [exact Hl1|].
    rewrite (letters_length _ _ _ _ Hv Els).
    apply Z2Nat.inj_le; try lia; [apply Z.div_pos; lia|].
    apply Z.div_le_upper_bound; lia. }
  split; [exact tables_are_spec|]. split.
  - destruct (gen_unique_slug_returns w (Some L) rs Hv Hl Hd) as (ls & Els & Hret).
    eexists. split; [exact Hret|].
    intros i c r Hc Hr. exact (Hpos _ ls i c r Els Hc Hr).
  - intros ts.
    destruct (timestamp_to_slug_returns w ts L rs Hv Hl Hd)
      as (ls & buf & Els & Hret & Htext).
    exists buf. split; [exact Hret|].
    intros i c r Hc Hr. rewrite Htext. exact (Hpos ts ls i c r Els Hc Hr).
Qed.

Lemma C3_bucket_selection_witness :
  valid_length 10 = true /\
  length (repeat Byte.x2a 10) = Z.to_nat 10 /\
  draws_are far_future_world 0 (repeat Byte.x2a 10) /\
  exists slug,
    returns (gen_unique_slug far_future_world (Some 10)) slug /\
    exists ch,
      nth_error slug 0 = Some ch /\
      nth_error (spec_DigitBucket 1) (Z.to_nat (42 mod spec_bucket_size 1)) = Some ch.
Proof.
  split; [reflexivity|]. split; [reflexivity|]. split; [reflexivity|].
  destruct (C3_bucket_selection far_future_world 10 (repeat Byte.x2a 10)
              eq_refl eq_refl eq_refl) as (_ & (slug & Hret & Hpos) & _).
  exists slug. split; [exact Hret|].
  destruct (Hpos 0%nat "1"%char Byte.x2a eq_refl eq_refl) as (_ & ch & H1 & H2).
  exists ch. split; [exact H1 | exact H2].
Defined.

(** ** The timestamp of the specification *)

Lemma u64_mul_add (a k b : Z) :
  u64_add (u64_mul (to_uint64 a) k) (to_uint64 b) = to_uint64 (a * k + b).
Proof.
  unfold u64_add, u64_mul, to_uint64.
  rewrite Z.mul_mod_idemp_l by (unfold UINT64_MODULUS; lia).
  rewrite <- Z.add_mod by (unfold UINT64_MODULUS; lia).
  reflexivity.
Qed.

Lemma timestamp_of_spec (t : timespec) (precision : Z) :
  valid_length precision = true ->
  timestamp_of t precision =
  to_uint64 (spec_timestamp (tv_sec t) (tv_nsec t) precision).
Proof.
  intros Hv. apply valid_length_cases in Hv.
  destruct Hv as [-> | [-> | [-> | ->]]]; unfold timestamp_of, spec_timestamp;
    cbn [select_arm Z.eqb Pos.eqb]; rewrite ?u64_mul_add; reflexivity.
Qed.

(** A clock far enough in the future for the nanosecond count to pass
    [2^64]: the value the code encodes is not the count. *)
Lemma C4_counterexample :
  valid_length 19 = true /\
  spec_timestamp 18446744074 0 19 = 18446744074000000000 /\
  fst (run (get_timestamp_value year_2554_world 19)) = Ok 290448384 /\
  fst (run (get_timestamp_value year_2554_world 19)) <>
    Ok (spec_timestamp 18446744074 0 19).
Proof.
  split; [reflexivity|]. split; [reflexivity|].
  split; [reflexivity | discriminate].
Qed.

(** C4, amended. For every clock reading (secs, nanos) and every valid
    precision, the timestamp value used for encoding is the count of
    the specification (secs; secs*1000 + nanos/1000000;
    secs*1000000 + nanos/1000; secs*1000000000 + nanos, with truncating
    division) reduced modulo 2^64, the arithmetic being that of
    [uint64]; it is that count itself whenever the count is in
    [0, 2^64). *)
Theorem C4_timestamp_value (w : world) (precision : Z) (st : state) :
  valid_length precision = true ->
  let t := realtime w (clock_reads st) in
  let count := spec_timestamp (tv_sec t) (tv_nsec t) precision in
  exists v st',
    get_timestamp_value w precision st = (Ok v, st') /\
    v = count mod 2 ^ 64 /\
    (0 <= count < 2 ^ 64 -> v = count).
Proof.
  intros Hv t count. rewrite get_timestamp_value_run.
  eexists. eexists. split; [reflexivity|].
  fold t. rewrite (timestamp_of_spec t precision Hv). fold count.
  split; [reflexivity|].
  intros Hc. apply Z.mod_small. exact Hc.
Qed.

Lemma C4_timestamp_value_witness :
  valid_length 13 = true /\
  exists st',
    get_timestamp_value
      (mkWorld (fun _ => mkTimespec 1700000000 123456789) (fun _ => None))
      13 initial_state = (Ok 1700000000123, st').
Proof.
  split; [reflexivity|].
  destruct (C4_timestamp_value
              (mkWorld (fun _ => mkTimespec 1700000000 123456789) (fun _ => None))
              13 initial_state eq_refl) as (v & st' & Hrun & Hv & _).
  exists st'. rewrite Hrun, Hv. reflexivity.
Defined.

(** ** Errors *)

(** Both error reports are terminal: a call either returns a slug or
    raises one error. *)
Lemma random_failed_not_invalid : random_failed <> invalid_length_error.
Proof. discriminate. Qed.

(** The error of an unsupported length is one constant report: 5 and
    12 are told apart by nothing in it. *)
Lemma C5_counterexample :
  raises (gen_unique_slug far_future_world (Some 5)) invalid_length_error /\
  raises (gen_unique_slug far_future_world (Some 12)) invalid_length_error /\
  ~ (exists offending_value : pg_error -> Z,
       forall len e,
         valid_length len = false ->
         raises (gen_unique_slug far_future_world (Some len)) e ->
         offending_value e = len).
Proof.
  assert (H5 : raises (gen_unique_slug far_future_world (Some 5)) invalid_length_error)
    by (eexists; reflexivity).
  assert (H12 : raises (gen_unique_slug far_future_world (Some 12)) invalid_length_error)
    by (eexists; reflexivity).
  split; [exact H5|]. split; [exact H12|].
  intros [f Hf].
  pose proof (Hf 5 _ eq_refl H5) as E5.
  pose proof (Hf 12 _ eq_refl H12) as E12.
  rewrite E5 in E12. discriminate E12.
Qed.

(** C5, amended. For every requested length not in {10, 13, 16, 19},
    [gen_unique_slug] fails with an invalid-parameter error before any
    clock read or random draw occurs (the state is as it was); the
    error carries a fixed message that names the four valid values,
    not the offending value, and a hint listing the four valid values
    and their unit meanings; when the length argument is NULL the call
    proceeds as with length 16, and so does not raise that error. *)
Theorem C5_invalid_length (w : world) (len : Z) (st : state) :
  valid_length len = false ->
  (exists e,
     gen_unique_slug w (Some len) st = (Raise e, st) /\
     err_code e = ERRCODE_INVALID_PARAMETER_VALUE /\
     err_msg e = "slug_length must be 10, 13, 16, or 19"%string /\
     err_hint e =
       Some "10=seconds, 13=milliseconds, 16=microseconds, 19=nanoseconds"%string) /\
  gen_unique_slug w None st = gen_unique_slug w (Some 16) st /\
  ~ raises (gen_unique_slug w None) invalid_length_error.
Proof.
  intros Hv. split; [|split].
  - exists invalid_length_error. split.
    + apply gen_unique_slug_invalid. exact Hv.
    + repeat split.
  - reflexivity.
  - intros Hraise.
    destruct (draws_dec w 0 (Z.to_nat 16)) as [(rs & Hl & Hd) | (rs & Hl & Hd & Hn)].
    + destruct (gen_unique_slug_returns w None rs eq_refl Hl Hd) as (ls & _ & Hret).
      exact (returns_not_raises _ _ _ Hret Hraise).
    + rewrite Nat.add_0_r in Hn.
      pose proof (gen_unique_slug_random_fail w None rs eq_refl Hl Hd Hn) as Hrun.
      destruct Hraise as [st' Hrun']. rewrite Hrun in Hrun'. discriminate Hrun'.
Qed.

Lemma C5_invalid_length_witness :
  valid_length 20 = false /\
  exists e,
    gen_unique_slug far_future_world (Some 20) initial_state =
      (Raise e, initial_state) /\
    err_code e = ERRCODE_INVALID_PARAMETER_VALUE.
Proof.
  split; [reflexivity|].
  destruct (C5_invalid_length far_future_world 20 initial_state eq_refl)
    as ((e & Hrun & Hcode & _) & _).
  exists e. split; [exact Hrun | exact Hcode].
Defined.

(** The draws before a failing one either all succeed, or an earlier
    one fails first. *)
Lemma first_failure (w : world) (p : nat) :
  strong_random w p = None ->
  exists rs, (length rs <= p)%nat /\ draws_are w 0 rs /\
             strong_random w (length rs) = None.
Proof.
  intros Hp.
  destruct (draws_dec w 0 (S p)) as [(rs & Hl & Hd) | (rs & Hl & Hd & Hn)].
  - exfalso. pose proof (draws_are_nth w 0 rs p Hd ltac:(lia)) as E.
    rewrite Nat.add_0_r, Hp in E.
    symmetry in E. apply nth_error_None in E. lia.
  - rewrite Nat.add_0_r in Hn. exists rs. repeat split; try assumption. lia.
Qed.

(** C6. When the draw of a secure random byte fails at some position,
    [gen_unique_slug] ends with the error of [pg_strong_random] and
    returns nothing: no slug, partial or other, comes back, and nothing
    more is drawn after the first failed draw. *)
Theorem C6_random_failure (w : world) (arg0 : option Z) (p : nat) :
  valid_length (requested_length arg0) = true ->
  (p < Z.to_nat (requested_length arg0))%nat ->
  strong_random w p = None ->
  (exists st q,
     run (gen_unique_slug w arg0) = (Raise random_failed, st) /\
     (q <= p)%nat /\ strong_random w q = None /\
     (forall k, (k < q)%nat -> strong_random w k <> None) /\
     random_draws st = S q) /\
  err_msg random_failed = "pg_strong_random failed"%string /\
  (forall slug, ~ returns (gen_unique_slug w arg0) slug).
Proof.
  intros Hv Hp Hnone.
  destruct (first_failure w p Hnone) as (rs & Hl & Hd & Hn).
  pose proof (gen_unique_slug_random_fail w arg0 rs Hv ltac:(lia) Hd Hn) as Hrun.
  split; [|split].
  - eexists. exists (length rs). split; [exact Hrun|].
    split; [exact Hl|]. split; [exact Hn|]. split; [|reflexivity].
    intros k Hk. pose proof (draws_are_nth w 0 rs k Hd Hk) as E.
    rewrite Nat.add_0_r in E. rewrite E. apply nth_error_Some. exact Hk.
  - reflexivity.
  - intros slug Hret. eapply returns_not_raises; [exact Hret|].
    eexists. exact Hrun.
Qed.

Lemma C6_random_failure_witness :
  valid_length (requested_length None) = true /\
  (3 < Z.to_nat (requested_length None))%nat /\
  strong_random failing_world 3 = None /\
  forall slug, ~ returns (gen_unique_slug failing_world None) slug.
Proof.
  split; [reflexivity|]. split; [cbn; lia|]. split; [reflexivity|].
  apply (C6_random_failure failing_world None 3); [reflexivity | cbn; lia | reflexivity].
Defined.

(** ** Decoding *)

Lemma decode_letter (d : Z) (l : ascii) :
  0 <= d <= 9 -> In l (spec_DigitBucket d) -> decode_char l = [digit_char d].
Proof.
  intros Hd Hin.
  digit_cases d; cbn in Hin;
    repeat (destruct Hin as [<-|Hin]; [reflexivity|]); contradiction.
Qed.

Lemma decode_encode_digit (c : ascii) (r : Byte.byte) (l : ascii) :
  is_decimal c -> encode_digit c r = Some l -> decode_char l = [c].
Proof.
  intros Hc He.
  destruct (encode_digit_by_table c r l Hc He) as [Hd Hnth].
  apply nth_error_In in Hnth.
  rewrite (decode_letter _ l Hd Hnth).
  destruct Hc as (d & Hd' & ->).
  rewrite digit_of_digit_char by assumption. reflexivity.
Qed.

Lemma decode_letters (cs : list ascii) :
  Forall is_decimal cs ->
  forall rs ls, encode_all cs rs = Some ls -> decode ls = cs.
Proof.
  induction 1 as [|c cs Hc _ IH]; intros [|r rs] ls H; simpl in H; try discriminate.
  - injection H as <-. reflexivity.
  - destruct (encode_digit c r) as [l|] eqn:El; [|discriminate].
    destruct (encode_all cs rs) as [ls'|] eqn:E; [|discriminate].
    injection H as <-. unfold decode. cbn [flat_map].
    rewrite (decode_encode_digit c r l Hc El). cbn [app].
    f_equal. exact (IH rs ls' E).
Qed.

(** Decoding undoes encoding, whatever the digits and the random bytes. *)
Lemma decode_slug_text (half : nat) (cs : list ascii) (rs : list Byte.byte)
      (ls : list ascii) :
  Forall is_decimal cs ->
  encode_all cs rs = Some ls ->
  decode (slug_text half ls) = cs.
Proof.
  intros Hcs Els. unfold slug_text, decode.
  rewrite flat_map_app. cbn [flat_map].
  change (decode_char "-"%char) with (@nil ascii). cbn [app].
  rewrite <- flat_map_app, firstn_skipn.
  exact (decode_letters cs Hcs rs ls Els).
Qed.

(** ** Digits within the width *)

Lemma utoa_rev_short (fuel : nat) :
  forall v n,
    0 <= v < 10 ^ Z.of_nat (S n) -> (length (utoa_rev fuel v) <= S n)%nat.
Proof.
  induction fuel as [|fuel IH]; intros v n Hv; cbn [utoa_rev length]; [lia|].
  destruct (Z.eqb_spec (v / 10) 0) as [E|E]; cbn [length]; [lia|].
  rewrite Nat2Z.inj_succ, Z.pow_succ_r in Hv by lia.
  assert (Hq : 0 <= v / 10 < 10 ^ Z.of_nat n).
  { split; [apply Z.div_pos; lia | apply Z.div_lt_upper_bound; lia]. }
  destruct n as [|n]; [cbn in Hq; lia|].
  specialize (IH (v / 10) n Hq). lia.
Qed.

Lemma value_rev_app (l1 l2 : list ascii) :
  value_rev (l1 ++ l2) =
  value_rev l1 + 10 ^ Z.of_nat (length l1) * value_rev l2.
Proof.
  induction l1 as [|c l1 IH]; cbn [app value_rev length].
  - rewrite Z.pow_0_r. lia.
  - rewrite IH, Nat2Z.inj_succ, Z.pow_succ_r by lia. lia.
Qed.

Lemma value_rev_zeros (k : nat) : value_rev (repeat "0"%char k) = 0.
Proof.
  induction k as [|k IH]; cbn [repeat value_rev]; [reflexivity|].
  rewrite IH. reflexivity.
Qed.

(** A value that fits the width is printed whole, with zeros on the
    left, and the digit string reads back as the value. *)
Lemma digit_string_padded (ts len : Z) :
  1 <= len <= 19 ->
  0 <= ts < 10 ^ len ->
  digit_string ts len =
    repeat "0"%char (Z.to_nat len - length (utoa ts)) ++ utoa ts /\
  decimal_value (digit_string ts len) = ts.
Proof.
  intros Hlen Hts.
  assert (Hpow : 10 ^ len <= 10 ^ 19) by (apply Z.pow_le_mono_r; lia).
  assert (Hsmall : 10 ^ 19 < 2 ^ 64) by reflexivity.
  assert (Hu : to_uint64 ts = ts)
    by (apply to_uint64_small; unfold UINT64_MODULUS; lia).
  assert (Hn : (length (utoa ts) <= Z.to_nat len)%nat).
  { unfold utoa. rewrite length_rev.
    replace (Z.to_nat len) with (S (Z.to_nat len - 1)) by lia.
    apply utoa_rev_short.
    replace (Z.of_nat (S (Z.to_nat len - 1))) with len by lia. exact Hts. }
  assert (Hds : digit_string ts len =
                repeat "0"%char (Z.to_nat len - length (utoa ts)) ++ utoa ts).
  { unfold digit_string, snprintf_0llu, format_0llu. rewrite Hu.
    destruct (Z.ltb_spec len 0) as [|_]; [lia|].
    rewrite firstn_firstn, firstn_all2; [reflexivity|].
    rewrite length_app, repeat_length. lia. }
  split; [exact Hds|].
  rewrite Hds. unfold decimal_value.
  rewrite rev_app_distr, rev_repeat, value_rev_app, value_rev_zeros.
  unfold utoa. rewrite rev_involutive.
  rewrite utoa_rev_value
    by (apply uint64_lt_pow10_20; unfold UINT64_MODULUS; lia).
  lia.
Qed.

(** ** Digits beyond the width *)

(** C7. The claim has the lowest-order digit_length digits encoded
    when the value has more digits than that.  The code at timestamp
    12345678901 and length 10: [snprintf] writes all eleven digits, the
    loop reads [digits[0 .. 9]], and the digit string encoded is
    1234567890, the leading ten, where the claim has 2345678901.  The
    last digit is not mapped to any letter, against the header of the
    source (each digit of the timestamp maps to a bucket, uniqueness
    with one insert per time unit): the next second, 12345678902, gets
    the same digit string and, with the same random bytes, the same
    slug. *)
Lemma C7_failing_input :
  digit_string 12345678901 10 = list_ascii_of_string "1234567890" /\
  spec_lowest_order_digits 12345678901 10 = list_ascii_of_string "2345678901" /\
  digit_string 12345678901 10 <> spec_lowest_order_digits 12345678901 10 /\
  fst (run (gen_unique_slug zero_world (Some 10))) =
    Ok (list_ascii_of_string "QuUsS-jJcCq") /\
  decode (list_ascii_of_string "QuUsS-jJcCq") =
    list_ascii_of_string "1234567890" /\
  fst (run (gen_unique_slug zero_world_next_second (Some 10))) =
    Ok (list_ascii_of_string "QuUsS-jJcCq") /\
  spec_lowest_order_digits 12345678902 10 <>
    spec_lowest_order_digits 12345678901 10.
Proof.
  split; [vm_compute; reflexivity|]. split; [vm_compute; reflexivity|].
  split; [vm_compute; discriminate|]. split; [vm_compute; reflexivity|].
  split; [vm_compute; reflexivity|]. split; [vm_compute; reflexivity|].
  vm_compute. discriminate.
Qed.

(** Past the width, consecutive timestamps share their digit string. *)
Example digits_beyond_width_collide :
  digit_string 12345678901 10 = digit_string 12345678902 10.
Proof. reflexivity. Qed.

Lemma value_rev_skipn (l : list ascii) :
  Forall is_decimal l ->
  forall k, value_rev (skipn k l) = value_rev l / 10 ^ Z.of_nat k.
Proof.
  induction 1 as [|c l [d [Hd ->]] _ IH]; intros k.
  - rewrite skipn_nil. cbn [value_rev]. rewrite Z.div_0_l; [reflexivity|].
    apply Z.pow_nonzero; lia.
  - destruct k as [|k].
    + cbn [skipn]. rewrite Z.pow_0_r, Z.div_1_r. reflexivity.
    + cbn [skipn value_rev]. rewrite IH.
      rewrite digit_of_digit_char by assumption.
      rewrite Nat2Z.inj_succ, Z.pow_succ_r by lia.
      rewrite <- Z.div_div by (try lia; apply Z.pow_pos_nonneg; lia).
      f_equal.
      rewrite (Z.mul_comm 10), Z.div_add by lia.
      rewrite Z.div_small by lia. reflexivity.
Qed.

Lemma digit_string_long (ts len : Z) :
  0 <= len <= 19 ->
  (Z.to_nat len <= length (utoa (to_uint64 ts)))%nat ->
  digit_string ts len = firstn (Z.to_nat len) (utoa (to_uint64 ts)).
Proof.
  intros Hlen Hlong. unfold digit_string, snprintf_0llu, format_0llu.
  destruct (Z.ltb_spec len 0) as [|_]; [lia|].
  replace (Z.to_nat len - length (utoa (to_uint64 ts)))%nat with 0%nat by lia.
  cbn [repeat app]. rewrite firstn_firstn. f_equal. lia.
Qed.

Lemma utoa_rev_lower (fuel : nat) :
  forall v, 0 < v -> 10 ^ (Z.of_nat (length (utoa_rev fuel v)) - 1) <= v.
Proof.
  induction fuel as [|fuel IH]; intros v Hv; cbn [utoa_rev length].
  - cbn. lia.
  - destruct (Z.eqb_spec (v / 10) 0) as [E|E]; cbn [length].
    + cbn. lia.
    + assert (Hq : 0 < v / 10).
      { pose proof (Z.div_pos v 10 ltac:(lia) ltac:(lia)). lia. }
      specialize (IH (v / 10) Hq).
      pose proof (Z.mul_div_le v 10 ltac:(lia)) as Hle.
      destruct (length (utoa_rev fuel (v / 10))) as [|k].
      * cbn. lia.
      * replace (Z.of_nat (S (S k)) - 1) with (Z.succ (Z.of_nat (S k) - 1)) by lia.
        rewrite Z.pow_succ_r by lia. lia.
Qed.

(** [utoa] prints a positive value with as many characters as it has
    decimal digits, no leading zero. *)
Lemma utoa_digit_count (v : Z) :
  0 < v < UINT64_MODULUS ->
  10 ^ (Z.of_nat (length (utoa v)) - 1) <= v < 10 ^ Z.of_nat (length (utoa v)).
Proof.
  intros Hv. unfold utoa. rewrite length_rev. split.
  - apply utoa_rev_lower. lia.
  - pose proof (value_rev_bound (utoa_rev 20 v) (utoa_rev_decimal 20 v)) as Hb.
    rewrite utoa_rev_value in Hb by (apply uint64_lt_pow10_20; lia).
    lia.
Qed.

(** What the code does with a timestamp of more digits than the
    length: with n the number of decimal digits of the value, the digit
    string encoded is the first digit_length characters of its decimal
    representation, which denote the value divided by
    10^(n - digit_length); the low-order digits are the ones dropped.
    Whatever the random source, a slug of that timestamp decodes to
    that digit string. *)
Theorem leading_digits_beyond_width (ts len : Z) :
  valid_length len = true ->
  0 <= ts < 2 ^ 64 ->
  10 ^ len <= ts ->
  let n := length (utoa ts) in
  10 ^ (Z.of_nat n - 1) <= ts < 10 ^ Z.of_nat n /\
  (Z.to_nat len < n)%nat /\
  decimal_value (utoa ts) = ts /\
  digit_string ts len = firstn (Z.to_nat len) (utoa ts) /\
  decimal_value (digit_string ts len) = ts / 10 ^ (Z.of_nat n - len) /\
  (forall w buf, returns (timestamp_to_slug w ts len) buf ->
                 decode (cstring_to_text buf) = digit_string ts len).
Proof.
  intros Hv Hts Hlong n.
  pose proof (valid_length_range len Hv) as Hrange.
  assert (Hu : to_uint64 ts = ts) by (apply to_uint64_small; exact Hts).
  assert (Hpos : 0 < 10 ^ len) by (apply Z.pow_pos_nonneg; lia).
  assert (Hn : (Z.to_nat len < n)%nat).
  { apply utoa_long; [exact Hts|]. rewrite Z2Nat.id by lia. exact Hlong. }
  assert (Hds : digit_string ts len = firstn (Z.to_nat len) (utoa ts)).
  { rewrite digit_string_long by (rewrite ?Hu; fold n; lia).
    rewrite Hu. reflexivity. }
  split; [apply utoa_digit_count; unfold UINT64_MODULUS; lia|].
  split; [exact Hn|]. split; [apply utoa_value; exact Hts|].
  split; [exact Hds|]. split.
  - rewrite Hds. unfold decimal_value, utoa.
    rewrite firstn_rev, rev_involutive.
    rewrite value_rev_skipn by apply utoa_rev_decimal.
    rewrite utoa_rev_value by (apply uint64_lt_pow10_20; exact Hts).
    f_equal. f_equal.
    assert (En : length (utoa_rev 20 ts) = n)
      by (unfold n, utoa; rewrite length_rev; reflexivity).
    rewrite En. lia.
  - intros w buf Hret.
    destruct (timestamp_to_slug_shape w ts len buf Hv Hret)
      as (rs & ls & _ & _ & Els & ->).
    apply (decode_slug_text _ _ rs); [|exact Els].
    apply digit_string_decimal. lia.
Qed.

Lemma leading_digits_beyond_width_instance :
  valid_length 10 = true /\
  0 <= 12345678901 < 2 ^ 64 /\
  10 ^ 10 <= 12345678901 /\
  decimal_value (digit_string 12345678901 10) = 12345678901 / 10 ^ (11 - 10).
Proof.
  split; [reflexivity|]. split; [lia|]. split; [lia|].
  exact (proj1 (proj2 (proj2 (proj2 (proj2
    (leading_digits_beyond_width 12345678901 10 eq_refl
       ltac:(lia) ltac:(lia))))))).
Defined.

(** ** Letters and their buckets *)

(** Every letter of a slug is in the bucket of the digit at its
    position. *)
Lemma letter_in_bucket (cs : list ascii) (rs : list Byte.byte) (ls : list ascii)
      (k : nat) (c l : ascii) :
  Forall is_decimal cs ->
  encode_all cs rs = Some ls ->
  nth_error cs k = Some c ->
  nth_error ls k = Some l ->
  In l (spec_DigitBucket (Z.of_N (N_of_ascii c) - 48)).
Proof.
  intros Hcs Els Hc Hl.
  destruct (encode_all_length _ _ _ Els) as [_ Hrs].
  destruct (nth_error rs k) as [r|] eqn:Er.
  - destruct (encode_all_nth _ _ _ _ _ _ Els Hc Er) as (l' & Hl' & He).
    assert (l' = l) by congruence. subst l'.
    assert (Hdec : is_decimal c).
    { rewrite Forall_forall in Hcs. apply Hcs. eapply nth_error_In, Hc. }
    destruct (encode_digit_by_table c r l Hdec He) as [_ Hnth].
    eapply nth_error_In, Hnth.
  - apply nth_error_None in Er.
    assert (k < length cs)%nat by (apply nth_error_Some; congruence). lia.
Qed.

(** C8. For the timestamp 1700000000 and length 10 the zero-padded
    digit string is "1700000000", and the output is five letters, '-',
    five letters: the first a member of bucket 1, QwErTy, the second of
    bucket 7, JkLzX, every other letter of bucket 0, qWeRtY. *)
Theorem C8_scenario (w : world) (rs : list Byte.byte) :
  length rs = 10%nat ->
  draws_are w 0 rs ->
  digit_string 1700000000 10 = list_ascii_of_string "1700000000" /\
  exists x0 x1 x2 x3 x4 x5 x6 x7 x8 x9 : ascii,
    let text := [x0; x1; x2; x3; x4; "-"%char; x5; x6; x7; x8; x9] in
    (exists buf, returns (timestamp_to_slug w 1700000000 10) buf /\
                 cstring_to_text buf = text) /\
    (tv_sec (realtime w 0) = 1700000000 ->
     returns (gen_unique_slug w (Some 10)) text) /\
    In x0 (list_ascii_of_string "QwErTy") /\
    In x1 (list_ascii_of_string "JkLzX") /\
    Forall (fun x => In x (list_ascii_of_string "qWeRtY"))
           [x2; x3; x4; x5; x6; x7; x8; x9].
Proof.
  intros Hl Hd.
  assert (Hds : digit_string 1700000000 10 = list_ascii_of_string "1700000000")
    by reflexivity.
  split; [exact Hds|].
  destruct (timestamp_to_slug_returns w 1700000000 10 rs eq_refl Hl Hd)
    as (ls & buf & Els & Hret & Htext).
  pose proof (letters_length _ _ _ _ (eq_refl : valid_length 10 = true) Els) as Hlen.
  assert (Hdec : Forall is_decimal (digit_string 1700000000 10))
    by (apply digit_string_decimal; lia).
  assert (Hin : forall k c l,
             nth_error (list_ascii_of_string "1700000000") k = Some c ->
             nth_error ls k = Some l ->
             In l (spec_DigitBucket (Z.of_N (N_of_ascii c) - 48))).
  { intros k c l Hc Hk. rewrite <- Hds in Hc.
    exact (letter_in_bucket _ rs ls k c l Hdec Els Hc Hk). }
  destruct ls as [|x0 [|x1 [|x2 [|x3 [|x4 [|x5 [|x6 [|x7 [|x8 [|x9 [|? ?]]]]]]]]]]];
    try discriminate Hlen.
  exists x0, x1, x2, x3, x4, x5, x6, x7, x8, x9. cbv zeta.
  split; [exists buf; split; [exact Hret | exact Htext]|].
  split.
  - intros Hsec.
    destruct (gen_unique_slug_returns w (Some 10) rs eq_refl Hl Hd)
      as (ls' & Els' & Hret').
    cbn [requested_length] in *.
    assert (Hts : call_timestamp w 10 = 1700000000).
    { unfold call_timestamp, timestamp_of. cbn [select_arm Z.eqb Pos.eqb].
      rewrite Hsec. reflexivity. }
    rewrite Hts, Els in Els'. injection Els' as <-. exact Hret'.
  - split; [exact (Hin 0%nat "1"%char x0 eq_refl eq_refl)|].
    split; [exact (Hin 1%nat "7"%char x1 eq_refl eq_refl)|].
    repeat (apply Forall_cons || apply Forall_nil).
    + exact (Hin 2%nat "0"%char x2 eq_refl eq_refl).
    + exact (Hin 3%nat "0"%char x3 eq_refl eq_refl).
    + exact (Hin 4%nat "0"%char x4 eq_refl eq_refl).
    + exact (Hin 5%nat "0"%char x5 eq_refl eq_refl).
    + exact (Hin 6%nat "0"%char x6 eq_refl eq_refl).
    + exact (Hin 7%nat "0"%char x7 eq_refl eq_refl).
    + exact (Hin 8%nat "0"%char x8 eq_refl eq_refl).
    + exact (Hin 9%nat "0"%char x9 eq_refl eq_refl).
Qed.

Lemma C8_scenario_witness :
  length scenario_bytes = 10%nat /\
  draws_are scenario_world 0 scenario_bytes /\
  digit_string 1700000000 10 = list_ascii_of_string "1700000000".
Proof.
  split; [reflexivity|]. split; [reflexivity|].
  exact (proj1 (C8_scenario scenario_world scenario_bytes eq_refl eq_refl)).
Defined.

Example scenario_run :
  fst (run (gen_unique_slug scenario_world (Some 10))) =
  Ok (list_ascii_of_string "rJYqW-eRtYq").
Proof. reflexivity. Qed.

(** ** Every digit string is the digit string of a timestamp *)

Lemma value_rev_zero (l : list ascii) :
  Forall is_decimal l -> value_rev l = 0 -> l = repeat "0"%char (length l).
Proof.
  induction 1 as [|c l [d [Hd ->]] Hl IH]; intros Hv; [reflexivity|].
  cbn [value_rev] in Hv. rewrite digit_of_digit_char in Hv by assumption.
  pose proof (value_rev_bound l Hl) as Hb.
  assert (d = 0) by lia. subst d.
  cbn [length repeat]. rewrite <- IH by lia. reflexivity.
Qed.

Lemma utoa_rev_pad (fuel : nat) :
  forall l,
    Forall is_decimal l -> l <> [] -> (length l <= fuel)%nat ->
    utoa_rev fuel (value_rev l)
      ++ repeat "0"%char (length l - length (utoa_rev fuel (value_rev l))) = l.
Proof.
  induction fuel as [|fuel IH]; intros l Hl Hne Hlen.
  - destruct l; [contradiction | cbn in Hlen; lia].
  - destruct l as [|c l]; [contradiction|].
    apply Forall_cons_iff in Hl. destruct Hl as [[d [Hd ->]] Hl].
    pose proof (value_rev_bound l Hl) as Hb.
    cbn [value_rev utoa_rev]. rewrite digit_of_digit_char by assumption.
    replace ((d + 10 * value_rev l) mod 10) with d
      by (rewrite (Z.mul_comm 10), Z.mod_add by lia;
          symmetry; apply Z.mod_small; lia).
    replace ((d + 10 * value_rev l) / 10) with (value_rev l)
      by (rewrite (Z.mul_comm 10), Z.div_add by lia;
          rewrite (Z.div_small d) by lia; lia).
    destruct (Z.eqb_spec (value_rev l) 0) as [E|E].
    + cbn [app length].
      replace (S (length l) - 1)%nat with (length l) by lia.
      rewrite <- (value_rev_zero l Hl E). reflexivity.
    + cbn [app length]. f_equal.
      replace (S (length l) - S (length (utoa_rev fuel (value_rev l))))%nat
        with (length l - length (utoa_rev fuel (value_rev l)))%nat by lia.
      apply IH; [exact Hl | | cbn in Hlen; lia].
      intros ->. apply E. reflexivity.
Qed.

(** A string of [len] decimal digits, read as a number and printed
    back in [len] columns, is itself. *)
Lemma digit_string_of_value (cs : list ascii) (len : Z) :
  1 <= len <= 19 ->
  length cs = Z.to_nat len ->
  Forall is_decimal cs ->
  0 <= decimal_value cs < 2 ^ 64 /\
  digit_string (decimal_value cs) len = cs.
Proof.
  intros Hlen Hcs Hdec. unfold decimal_value.
  assert (Hrdec : Forall is_decimal (rev cs)) by (apply Forall_rev, Hdec).
  pose proof (value_rev_bound (rev cs) Hrdec) as Hb.
  rewrite length_rev in Hb.
  assert (Hpow : 10 ^ Z.of_nat (length cs) <= 10 ^ 19)
    by (apply Z.pow_le_mono_r; lia).
  assert (Hsmall : 10 ^ 19 < 2 ^ 64) by reflexivity.
  split; [lia|].
  unfold digit_string, snprintf_0llu, format_0llu.
  destruct (Z.ltb_spec len 0) as [|_]; [lia|].
  rewrite to_uint64_small by (unfold UINT64_MODULUS; lia).
  unfold utoa. rewrite length_rev.
  rewrite <- (rev_repeat _ "0"%char), <- rev_app_distr.
  rewrite <- Hcs, <- (length_rev cs).
  rewrite utoa_rev_pad.
  - rewrite rev_involutive, length_rev.
    rewrite firstn_firstn, firstn_all2; [reflexivity|]. lia.
  - exact Hrdec.
  - intros E. apply (f_equal (@length ascii)) in E.
    rewrite length_rev in E. cbn in E. lia.
  - rewrite length_rev. lia.
Qed.

(** ** Disjoint buckets *)

Lemma nodupb_sound (l : list ascii) : nodupb l = true -> NoDup l.
Proof.
  induction l as [|c l IH]; intros H; [constructor|].
  cbn [nodupb] in H. apply andb_true_iff in H. destruct H as [Hc Hl].
  constructor; [|exact (IH Hl)].
  intros Hin. apply negb_true_iff in Hc.
  assert (existsb (Ascii.eqb c) l = true); [|congruence].
  apply existsb_exists. exists c. split; [exact Hin | apply Ascii.eqb_refl].
Qed.

Lemma all_letters_NoDup : NoDup all_letters.
Proof. apply nodupb_sound. reflexivity. Qed.

Lemma NoDup_app_disjoint {A} (l1 l2 : list A) (x : A) :
  NoDup (l1 ++ l2) -> In x l1 -> In x l2 -> False.
Proof.
  induction l1 as [|a l1 IH]; intros Hnd H1 H2; [contradiction|].
  cbn [app] in Hnd. apply NoDup_cons_iff in Hnd. destruct Hnd as [Ha Hnd].
  destruct H1 as [->|H1].
  - apply Ha, in_or_app. right. exact H2.
  - exact (IH Hnd H1 H2).
Qed.

(** In a list of lists whose concatenation has no duplicate, an
    element is in one of them only. *)
Lemma NoDup_concat_unique {A} (ls : list (list A)) :
  NoDup (concat ls) ->
  forall i j bi bj x,
    nth_error ls i = Some bi -> nth_error ls j = Some bj ->
    In x bi -> In x bj -> i = j.
Proof.
  induction ls as [|b ls IH]; intros Hnd i j bi bj x Hi Hj Hxi Hxj.
  - destruct i; discriminate.
  - cbn [concat] in Hnd.
    destruct i as [|i], j as [|j]; cbn [nth_error] in Hi, Hj.
    + reflexivity.
    + exfalso. injection Hi as <-.
      apply (NoDup_app_disjoint _ _ x Hnd Hxi).
      apply in_concat. exists bj. split; [eapply nth_error_In, Hj | exact Hxj].
    + exfalso. injection Hj as <-.
      apply (NoDup_app_disjoint _ _ x Hnd Hxj).
      apply in_concat. exists bi. split; [eapply nth_error_In, Hi | exact Hxi].
    + f_equal. apply NoDup_app_remove_l in Hnd.
      exact (IH Hnd i j bi bj x Hi Hj Hxi Hxj).
Qed.

Lemma index_nth_error {A} (l : list A) (d : Z) (a : A) :
  index l d = Some a -> 0 <= d /\ nth_error l (Z.to_nat d) = Some a.
Proof.
  unfold index. destruct (Z.ltb_spec d 0) as [|Hd]; [discriminate|].
  intros Hn. split; [exact Hd | exact Hn].
Qed.

Lemma buckets_disjoint (d1 d2 : Z) (b1 b2 : list ascii) (c : ascii) :
  index digit_buckets d1 = Some b1 -> index digit_buckets d2 = Some b2 ->
  In c b1 -> In c b2 -> d1 = d2.
Proof.
  intros H1 H2 Hc1 Hc2.
  apply index_nth_error in H1. destruct H1 as [Hd1 H1].
  apply index_nth_error in H2. destruct H2 as [Hd2 H2].
  pose proof (NoDup_concat_unique digit_buckets all_letters_NoDup
                _ _ _ _ c H1 H2 Hc1 Hc2).
  lia.
Qed.

Lemma letter_has_bucket (c : ascii) :
  is_letter c ->
  exists! d, exists b, index digit_buckets d = Some b /\ In c b.
Proof.
  intros Hc. unfold is_letter, all_letters in Hc.
  apply in_concat in Hc. destruct Hc as (b & Hb & Hcb).
  apply In_nth_error in Hb. destruct Hb as [n Hn].
  assert (Hi : index digit_buckets (Z.of_nat n) = Some b).
  { unfold index. destruct (Z.ltb_spec (Z.of_nat n) 0); [lia|].
    rewrite Nat2Z.id. exact Hn. }
  exists (Z.of_nat n). split.
  - exists b. split; [exact Hi | exact Hcb].
  - intros d' (b' & Hb' & Hcb').
    exact (buckets_disjoint _ _ _ _ c Hi Hb' Hcb Hcb').
Qed.

Lemma slug_text_chars (half : nat) (ls : list ascii) (c : ascii) :
  Forall is_letter ls -> In c (slug_text half ls) -> c <> "-"%char -> is_letter c.
Proof.
  intros Hls Hin Hne. unfold slug_text in Hin.
  rewrite Forall_forall in Hls. apply Hls.
  rewrite <- (firstn_skipn half ls).
  apply in_app_or in Hin. apply in_or_app.
  destruct Hin as [H|[H|H]]; [left; exact H | congruence | right; exact H].
Qed.

(** C9. The ten bucket alphabets are pairwise disjoint, their 52
    letters all distinct, so every character of a slug other than the
    separator is in exactly one bucket; and the zero-padded digit
    string is recovered from the slug: [decode] after the encoding is
    the identity, for every digit string and every choice of random
    bytes. *)
Theorem C9_decode_encode (w : world) (L : Z) :
  valid_length L = true ->
  (NoDup all_letters /\ length all_letters = 52%nat /\
   forall d1 d2 b1 b2 c,
     index digit_buckets d1 = Some b1 -> index digit_buckets d2 = Some b2 ->
     In c b1 -> In c b2 -> d1 = d2) /\
  (forall slug c,
     returns (gen_unique_slug w (Some L)) slug ->
     In c slug -> c <> "-"%char ->
     exists! d, exists b, index digit_buckets d = Some b /\ In c b) /\
  (forall slug,
     returns (gen_unique_slug w (Some L)) slug ->
     decode slug = digit_string (call_timestamp w L) L) /\
  (forall cs rs,
     Forall is_decimal cs -> length cs = Z.to_nat L ->
     length rs = Z.to_nat L -> draws_are w 0 rs ->
     exists ts buf,
       digit_string ts L = cs /\
       returns (timestamp_to_slug w ts L) buf /\
       decode (cstring_to_text buf) = cs).
Proof.
  intros Hv. pose proof (valid_length_range L Hv) as Hrange.
  split; [|split; [|split]].
  - split; [exact all_letters_NoDup|]. split; [reflexivity|].
    exact buckets_disjoint.
  - intros slug c Hret Hin Hne.
    destruct (gen_unique_slug_shape w (Some L) slug Hv Hret)
      as (rs & ls & _ & _ & Els & ->).
    apply letter_has_bucket.
    eapply slug_text_chars; [exact (encode_all_letters _ _ _ Els) | exact Hin | exact Hne].
  - intros slug Hret.
    destruct (gen_unique_slug_shape w (Some L) slug Hv Hret)
      as (rs & ls & _ & _ & Els & ->).
    cbn [requested_length] in Els.
    apply (decode_slug_text _ _ rs); [|exact Els].
    apply digit_string_decimal. lia.
  - intros cs rs Hdec Hcs Hrs Hd.
    destruct (digit_string_of_value cs L ltac:(lia) Hcs Hdec) as [_ Hds].
    destruct (timestamp_to_slug_returns w (decimal_value cs) L rs Hv Hrs Hd)
      as (ls & buf & Els & Hret & Htext).
    exists (decimal_value cs), buf.
    split; [exact Hds|]. split; [exact Hret|].
    rewrite Htext. rewrite Hds in Els.
    exact (decode_slug_text _ cs rs ls Hdec Els).
Qed.

Lemma C9_decode_encode_witness :
  valid_length 10 = true /\
  returns (gen_unique_slug scenario_world (Some 10))
          (list_ascii_of_string "rJYqW-eRtYq") /\
  decode (list_ascii_of_string "rJYqW-eRtYq") =
    digit_string (call_timestamp scenario_world 10) 10.
Proof.
  split; [reflexivity|].
  assert (Hret : returns (gen_unique_slug scenario_world (Some 10))
                         (list_ascii_of_string "rJYqW-eRtYq"))
    by (eexists; reflexivity).
  split; [exact Hret|].
  destruct (C9_decode_encode scenario_world 10 eq_refl) as (_ & _ & Hdec & _).
  exact (Hdec _ Hret).
Defined.

(** ** The default arm *)

(** The default arm is there: a direct call with another precision
    goes through it. *)
Example default_arm_direct :
  arms_taken (snd (run (get_timestamp_value scenario_world 12))) = [ArmDefault].
Proof. reflexivity. Qed.

Lemma valid_length_arm (len : Z) :
  valid_length len = true -> select_arm len <> ArmDefault.
Proof.
  intros Hv. apply valid_length_cases in Hv.
  destruct Hv as [-> | [-> | [-> | ->]]]; discriminate.
Qed.

(** C10. The length having passed validation, the default arm of the
    switch in [get_timestamp_value] is not reached in any call of
    [gen_unique_slug]: whatever the argument and the world, the state
    the call ends in records no passage through it; a call with a valid
    length goes through the switch once, by the arm of that length, a
    call with another length not at all. *)
Theorem C10_default_arm_unreachable (w : world) (arg0 : option Z)
        (o : outcome (list ascii)) (st : state) :
  run (gen_unique_slug w arg0) = (o, st) ->
  ~ In ArmDefault (arms_taken st) /\
  (valid_length (requested_length arg0) = true ->
   arms_taken st = [select_arm (requested_length arg0)] /\
   select_arm (requested_length arg0) <> ArmDefault) /\
  (valid_length (requested_length arg0) = false -> arms_taken st = []).
Proof.
  intros Hrun.
  destruct (valid_length (requested_length arg0)) eqn:Hv.
  - pose proof (valid_length_arm _ Hv) as Harm.
    assert (Harms : arms_taken st = [select_arm (requested_length arg0)]).
    { destruct (draws_dec w 0 (Z.to_nat (requested_length arg0)))
        as [(rs & Hl & Hd) | (rs & Hl & Hd & Hn)].
      - destruct (gen_unique_slug_ok w arg0 rs Hv Hl Hd) as (ls & _ & Hrun').
        rewrite Hrun in Hrun'. injection Hrun' as _ ->. reflexivity.
      - rewrite Nat.add_0_r in Hn.
        pose proof (gen_unique_slug_random_fail w arg0 rs Hv Hl Hd Hn) as Hrun'.
        rewrite Hrun in Hrun'. injection Hrun' as _ ->. reflexivity. }
    split; [|split].
    + rewrite Harms. intros [H|[]]. exact (Harm H).
    + intros _. split; [exact Harms | exact Harm].
    + discriminate.
  - unfold run in Hrun. rewrite (gen_unique_slug_invalid w arg0 _ Hv) in Hrun.
    injection Hrun as _ <-.
    split; [|split].
    + intros [].
    + discriminate.
    + reflexivity.
Qed.

Lemma C10_default_arm_unreachable_witness :
  run (gen_unique_slug scenario_world (Some 10)) =
    (Ok (list_ascii_of_string "rJYqW-eRtYq"), mkState 1 10 [Arm10]) /\
  ~ In ArmDefault [Arm10].
Proof.
  split; [reflexivity|].
  exact (proj1 (C10_default_arm_unreachable scenario_world (Some 10) _ _ eq_refl)).
Defined.

(** * Further properties of the three functions *)

(** ** Outcomes of a call *)

Lemma returns_valid (w : world) (arg0 : option Z) (slug : list ascii) :
  returns (gen_unique_slug w arg0) slug ->
  valid_length (requested_length arg0) = true.
Proof.
  intros [st Hrun].
  destruct (valid_length (requested_length arg0)) eqn:Hv; [reflexivity|].
  unfold run in Hrun. rewrite (gen_unique_slug_invalid w arg0 _ Hv) in Hrun.
  discriminate Hrun.
Qed.

Lemma draws_are_succeed (w : world) (rs : list Byte.byte) (k : nat) :
  draws_are w 0 rs -> (k < length rs)%nat -> strong_random w k <> None.
Proof.
  intros Hd Hk. pose proof (draws_are_nth w 0 rs k Hd Hk) as E.
  rewrite Nat.add_0_r in E. rewrite E. apply nth_error_Some. exact Hk.
Qed.

(** X1. A call of [gen_unique_slug] ends in one of three ways, and
    which one is decided by the length and the random source alone: the
    invalid-length error for a length outside {10, 13, 16, 19}; a slug
    when the length is valid and its first L draws succeed; the
    [pg_strong_random] error when the length is valid and one of those
    draws fails.  No table or buffer is ever accessed out of range. *)
Theorem gen_unique_slug_outcomes (w : world) (arg0 : option Z) :
  let len := requested_length arg0 in
  fst (run (gen_unique_slug w arg0)) <> Undefined /\
  ((valid_length len = false /\
    raises (gen_unique_slug w arg0) invalid_length_error) \/
   (valid_length len = true /\
    (forall k, (k < Z.to_nat len)%nat -> strong_random w k <> None) /\
    exists slug, returns (gen_unique_slug w arg0) slug) \/
   (valid_length len = true /\
    (exists k, (k < Z.to_nat len)%nat /\ strong_random w k = None) /\
    raises (gen_unique_slug w arg0) random_failed)).
Proof.
  intros len. destruct (valid_length len) eqn:Hv.
  - destruct (draws_dec w 0 (Z.to_nat len))
      as [(rs & Hl & Hd) | (rs & Hl & Hd & Hn)].
    + destruct (gen_unique_slug_ok w arg0 rs Hv Hl Hd) as (ls & _ & Hrun).
      split; [rewrite Hrun; discriminate|].
      right. left. split; [reflexivity|]. split.
      * intros k Hk. apply (draws_are_succeed w rs k Hd). lia.
      * eexists. eexists. exact Hrun.
    + rewrite Nat.add_0_r in Hn.
      pose proof (gen_unique_slug_random_fail w arg0 rs Hv Hl Hd Hn) as Hrun.
      split; [rewrite Hrun; discriminate|].
      right. right. split; [reflexivity|]. split.
      * exists (length rs). split; [exact Hl | exact Hn].
      * eexists. exact Hrun.
  - pose proof (gen_unique_slug_invalid w arg0 initial_state Hv) as Hrun.
    split; [unfold run; rewrite Hrun; discriminate|].
    left. split; [reflexivity|]. eexists. exact Hrun.
Qed.

(** ** The two buffers *)

(** X2. For a valid length the loop of [timestamp_to_slug] stays inside
    both buffers.  It leaves len + 1 characters and the NUL in [slug],
    at most 21 of its 22 bytes, none of the characters being NUL, so
    that [cstring_to_text] takes them all; and every [digits[i]] it
    reads, i < len, is one of the at most 19 characters [snprintf]
    stored. *)
Theorem slug_buffer_bounds (w : world) (ts len : Z) (buf : list ascii) :
  valid_length len = true ->
  returns (timestamp_to_slug w ts len) buf ->
  Z.of_nat (length buf) = len + 2 /\
  (length buf <= 22)%nat /\
  (exists text, buf = text ++ [NUL] /\ ~ In NUL text /\
                cstring_to_text buf = text) /\
  (Z.to_nat len <= length (snprintf_0llu 20 len (to_uint64 ts)) <= 19)%nat.
Proof.
  intros Hv Hret. pose proof (valid_length_range len Hv) as Hrange.
  destruct (timestamp_to_slug_returned w ts len buf Hv Hret) as (rs & Hl & Hd).
  destruct (timestamp_to_slug_ok w ts len rs initial_state)
    as (ls & Els & Hrun); [lia | assumption | assumption |].
  assert (Hbuf : returns (timestamp_to_slug w ts len)
                         (assemble (Z.quot len 2) 0 ls ++ [NUL]))
    by (eexists; exact Hrun).
  pose proof (returns_unique _ _ _ Hret Hbuf) as ->.
  pose proof (letters_length _ _ _ _ Hv Els) as Hls.
  pose proof (encode_all_letters _ _ _ Els) as Hlet.
  pose proof (assemble_text len ls ltac:(lia) Hls Hlet) as Htext.
  assert (Hlen : length (assemble (Z.quot len 2) 0 ls) = S (Z.to_nat len)).
  { rewrite Z.quot_div_nonneg by lia.
    assert (Hhalf : 0 <= len / 2 < len)
      by (split; [apply Z.div_pos; lia | apply Z.div_lt_upper_bound; lia]).
    rewrite assemble_split by lia.
    rewrite Z.sub_0_r. fold (slug_text (Z.to_nat (len / 2)) ls).
    rewrite slug_text_length. lia. }
  rewrite length_app, Hlen. cbn [length].
  split; [lia|]. split; [lia|]. split.
  - exists (assemble (Z.quot len 2) 0 ls). split; [reflexivity|].
    assert (Hno : ~ In NUL (slug_text (Z.to_nat (len / 2)) ls)).
    { intros Hin.
      apply (NUL_not_letter).
      eapply slug_text_chars; [exact Hlet | exact Hin | discriminate]. }
    assert (Hsame : assemble (Z.quot len 2) 0 ls = slug_text (Z.to_nat (len / 2)) ls).
    { rewrite Z.quot_div_nonneg by lia.
      assert (Hhalf : 0 <= len / 2 < len)
        by (split; [apply Z.div_pos; lia | apply Z.div_lt_upper_bound; lia]).
      rewrite assemble_split by lia. rewrite Z.sub_0_r. reflexivity. }
    rewrite Hsame in *. split; [exact Hno | exact Htext].
  - split; [apply snprintf_0llu_length; lia|].
    unfold snprintf_0llu. rewrite length_firstn. lia.
Qed.

Lemma slug_buffer_bounds_witness :
  valid_length 19 = true /\
  exists buf,
    returns (timestamp_to_slug far_future_world 18446744073709551615 19) buf /\
    Z.of_nat (length buf) = 19 + 2.
Proof.
  split; [reflexivity|].
  destruct (timestamp_to_slug_returns far_future_world 18446744073709551615 19
              (repeat Byte.x2a 19) eq_refl eq_refl eq_refl)
    as (ls & buf & _ & Hret & _).
  exists buf. split; [exact Hret|].
  exact (proj1 (slug_buffer_bounds far_future_world _ 19 buf eq_refl Hret)).
Defined.

(** ** What a call consumes *)

(** X3. A call that returns a slug has read the clock exactly once and
    drawn exactly one random byte per digit, L in all; a call that ends
    with the [pg_strong_random] error has read the clock once and drawn
    at least one and at most L bytes; a call that ends with the
    invalid-length error has done neither. *)
Theorem call_resources (w : world) (arg0 : option Z)
        (o : outcome (list ascii)) (st : state) :
  run (gen_unique_slug w arg0) = (o, st) ->
  let len := requested_length arg0 in
  (forall slug, o = Ok slug ->
     clock_reads st = 1%nat /\ random_draws st = Z.to_nat len) /\
  (o = Raise random_failed ->
     clock_reads st = 1%nat /\ (1 <= random_draws st <= Z.to_nat len)%nat) /\
  (o = Raise invalid_length_error ->
     clock_reads st = 0%nat /\ random_draws st = 0%nat).
Proof.
  intros Hrun len. destruct (valid_length len) eqn:Hv.
  - destruct (draws_dec w 0 (Z.to_nat len))
      as [(rs & Hl & Hd) | (rs & Hl & Hd & Hn)].
    + destruct (gen_unique_slug_ok w arg0 rs Hv Hl Hd) as (ls & _ & Hrun').
      rewrite Hrun in Hrun'. injection Hrun' as -> ->.
      split; [|split]; [intros; split; reflexivity | discriminate | discriminate].
    + rewrite Nat.add_0_r in Hn.
      pose proof (gen_unique_slug_random_fail w arg0 rs Hv Hl Hd Hn) as Hrun'.
      rewrite Hrun in Hrun'. injection Hrun' as -> ->.
      split; [|split]; [discriminate | | discriminate].
      intros _. cbn [clock_reads random_draws]. split; [reflexivity | lia].
  - unfold run in Hrun. rewrite (gen_unique_slug_invalid w arg0 _ Hv) in Hrun.
    injection Hrun as <- <-.
    split; [|split]; [discriminate | discriminate |].
    intros _. split; reflexivity.
Qed.

Lemma call_resources_witness :
  run (gen_unique_slug scenario_world (Some 10)) =
    (Ok (list_ascii_of_string "rJYqW-eRtYq"), mkState 1 10 [Arm10]) /\
  clock_reads (mkState 1 10 [Arm10]) = 1%nat /\
  random_draws (mkState 1 10 [Arm10]) = Z.to_nat 10.
Proof.
  assert (Hrun : run (gen_unique_slug scenario_world (Some 10)) =
                 (Ok (list_ascii_of_string "rJYqW-eRtYq"), mkState 1 10 [Arm10]))
    by (vm_compute; reflexivity).
  split; [exact Hrun|].
  exact (proj1 (call_resources scenario_world (Some 10) _ _ Hrun) _ eq_refl).
Defined.

(** ** The alphabet *)

Lemma all_ascii_complete (c : ascii) : In c all_ascii.
Proof.
  unfold all_ascii. apply in_map_iff. exists (nat_of_ascii c).
  split; [apply ascii_nat_embedding|].
  apply in_seq. pose proof (nat_ascii_bounded c). lia.
Qed.

Lemma letters_are_the_alphabet (c : ascii) :
  is_ascii_letter c = true <-> is_letter c.
Proof.
  assert (Hall : forallb (fun c => Bool.eqb (is_ascii_letter c)
                                     (existsb (Ascii.eqb c) all_letters))
                         all_ascii = true) by (vm_compute; reflexivity).
  rewrite forallb_forall in Hall.
  specialize (Hall c (all_ascii_complete c)).
  apply Bool.eqb_prop in Hall. rewrite Hall. unfold is_letter.
  rewrite existsb_exists. split.
  - intros (x & Hin & Heq). apply Ascii.eqb_eq in Heq. subst x. exact Hin.
  - intros Hin. exists c. split; [exact Hin | apply Ascii.eqb_refl].
Qed.

(** X4. The letters of the ten buckets are the 52 letters of ASCII,
    A to Z and a to z, each in some bucket; and every character of a
    returned slug is such a letter or the hyphen. *)
Theorem slug_alphabet (w : world) (arg0 : option Z) :
  (forall c, is_ascii_letter c = true <-> In c (concat digit_buckets)) /\
  (forall slug,
     returns (gen_unique_slug w arg0) slug ->
     Forall (fun c => c = "-"%char \/ is_ascii_letter c = true) slug).
Proof.
  split; [exact letters_are_the_alphabet|].
  intros slug Hret.
  pose proof (returns_valid w arg0 slug Hret) as Hv.
  destruct (gen_unique_slug_shape w arg0 slug Hv Hret)
    as (rs & ls & _ & _ & Els & ->).
  apply Forall_forall. intros c Hin.
  destruct (ascii_dec c "-"%char) as [->|Hne]; [left; reflexivity|].
  right. apply letters_are_the_alphabet.
  eapply slug_text_chars; [exact (encode_all_letters _ _ _ Els) | exact Hin | exact Hne].
Qed.

Lemma slug_alphabet_witness :
  returns (gen_unique_slug scenario_world (Some 10))
          (list_ascii_of_string "rJYqW-eRtYq") /\
  Forall (fun c => c = "-"%char \/ is_ascii_letter c = true)
         (list_ascii_of_string "rJYqW-eRtYq").
Proof.
  assert (Hret : returns (gen_unique_slug scenario_world (Some 10))
                         (list_ascii_of_string "rJYqW-eRtYq"))
    by (exists (mkState 1 10 [Arm10]); vm_compute; reflexivity).
  split; [exact Hret|].
  exact (proj2 (slug_alphabet scenario_world (Some 10)) _ Hret).
Defined.

(** ** Clock readings whose count fits the width *)

(** The count of the specification lies between the seconds scaled to
    the unit and the next second. *)
Lemma spec_timestamp_bounds (secs nanos len : Z) :
  valid_length len = true ->
  0 <= nanos < 10 ^ 9 ->
  secs * 10 ^ (len - 10) <= spec_timestamp secs nanos len
    < (secs + 1) * 10 ^ (len - 10).
Proof.
  intros Hv Hn. apply valid_length_cases in Hv.
  assert (H6 : 0 <= nanos / 1000000 < 1000).
  { split; [apply Z.div_pos; lia | apply Z.div_lt_upper_bound; lia]. }
  assert (H3 : 0 <= nanos / 1000 < 1000000).
  { split; [apply Z.div_pos; lia | apply Z.div_lt_upper_bound; lia]. }
  destruct Hv as [-> | [-> | [-> | ->]]]; unfold spec_timestamp;
    cbn [Z.eqb Pos.eqb]; rewrite ?Z.quot_div_nonneg by lia;
    cbn [Z.sub Z.add Z.opp Z.pos_sub Pos.pred_double Z.succ_double
         Z.pred_double Z.double]; lia.
Qed.

(** A reading before second [10^10] with nanoseconds below [10^9]:
    the code's timestamp is the count, and it fits the width. *)
Lemma timestamp_of_in_range (t : timespec) (len : Z) :
  valid_length len = true ->
  0 <= tv_sec t < 10 ^ 10 ->
  0 <= tv_nsec t < 10 ^ 9 ->
  timestamp_of t len = spec_timestamp (tv_sec t) (tv_nsec t) len /\
  0 <= timestamp_of t len < 10 ^ len.
Proof.
  intros Hv Hs Hn.
  pose proof (spec_timestamp_bounds (tv_sec t) (tv_nsec t) len Hv Hn) as Hb.
  pose proof (valid_length_range len Hv) as Hrange.
  assert (Hpow : 10 ^ len = 10 ^ 10 * 10 ^ (len - 10)).
  { rewrite <- Z.pow_add_r by lia. f_equal. lia. }
  assert (Hp : 0 < 10 ^ (len - 10)) by (apply Z.pow_pos_nonneg; lia).
  assert (Hfit : 0 <= spec_timestamp (tv_sec t) (tv_nsec t) len < 10 ^ len).
  { rewrite Hpow. split; [nia|].
    eapply Z.lt_le_trans; [apply Hb|].
    apply Z.mul_le_mono_nonneg_r; lia. }
  assert (Hle : 10 ^ len <= 10 ^ 19) by (apply Z.pow_le_mono_r; lia).
  assert (Hsmall : 10 ^ 19 < 2 ^ 64) by reflexivity.
  rewrite (timestamp_of_spec t len Hv).
  rewrite to_uint64_small by (unfold UINT64_MODULUS; lia).
  split; [reflexivity | exact Hfit].
Qed.

(** X5. For a clock reading with nanoseconds in [0, 10^9) and seconds
    in [0, 18446744073), [get_timestamp_value] returns the exact count
    of time units, without wrap-around, and for each of the four
    precisions the count fits the L digits exactly when the seconds are
    below 10^10: the four widths are exhausted at the same second. *)
Theorem timestamp_fits_width (w : world) (precision : Z) (st : state) :
  valid_length precision = true ->
  let t := realtime w (clock_reads st) in
  0 <= tv_sec t < 18446744073 ->
  0 <= tv_nsec t < 10 ^ 9 ->
  exists v st',
    get_timestamp_value w precision st = (Ok v, st') /\
    v = spec_timestamp (tv_sec t) (tv_nsec t) precision /\
    (v < 10 ^ precision <-> tv_sec t < 10 ^ 10).
Proof.
  intros Hv t Hs Hn. rewrite get_timestamp_value_run. fold t.
  eexists. eexists. split; [reflexivity|].
  pose proof (spec_timestamp_bounds (tv_sec t) (tv_nsec t) precision Hv Hn) as Hb.
  pose proof (valid_length_range precision Hv) as Hrange.
  assert (Hpow : 10 ^ precision = 10 ^ 10 * 10 ^ (precision - 10)).
  { rewrite <- Z.pow_add_r by lia. f_equal. lia. }
  assert (Hp : 0 < 10 ^ (precision - 10)) by (apply Z.pow_pos_nonneg; lia).
  assert (Hp9 : 10 ^ (precision - 10) <= 10 ^ 9) by (apply Z.pow_le_mono_r; lia).
  assert (Hwrap : 0 <= spec_timestamp (tv_sec t) (tv_nsec t) precision < 2 ^ 64).
  { split; [nia|].
    eapply Z.lt_le_trans; [apply Hb|].
    transitivity (18446744073 * 10 ^ 9); [|vm_compute; discriminate].
    apply Z.mul_le_mono_nonneg; lia. }
  rewrite (timestamp_of_spec t precision Hv).
  rewrite to_uint64_small by (unfold UINT64_MODULUS; exact Hwrap).
  split; [reflexivity|].
  rewrite Hpow. split.
  - intros Hlt.
    destruct (Z.lt_ge_cases (tv_sec t) (10 ^ 10)) as [|Hge]; [assumption|].
    exfalso.
    assert (10 ^ 10 * 10 ^ (precision - 10) <= tv_sec t * 10 ^ (precision - 10))
      by (apply Z.mul_le_mono_nonneg_r; lia).
    lia.
  - intros Hlt.
    eapply Z.lt_le_trans; [apply Hb|].
    apply Z.mul_le_mono_nonneg_r; lia.
Qed.

Lemma timestamp_fits_width_witness :
  valid_length 16 = true /\
  0 <= 1700000000 < 18446744073 /\
  0 <= 123456789 < 10 ^ 9 /\
  exists st',
    get_timestamp_value scenario_world 16 initial_state =
      (Ok 1700000000123456, st').
Proof.
  split; [reflexivity|]. split; [lia|]. split; [lia|].
  destruct (timestamp_fits_width scenario_world 16 initial_state eq_refl
              ltac:(cbn; lia) ltac:(cbn; lia)) as (v & st' & Hrun & Hv & _).
  exists st'. rewrite Hrun, Hv. reflexivity.
Defined.

(** ** From the slug back to the clock *)

Lemma gen_unique_slug_length (w : world) (arg0 : option Z) (slug : list ascii) :
  returns (gen_unique_slug w arg0) slug ->
  Z.of_nat (length slug) = requested_length arg0 + 1.
Proof.
  intros Hret. pose proof (returns_valid w arg0 slug Hret) as Hv.
  pose proof (valid_length_range _ Hv) as Hrange.
  destruct (gen_unique_slug_shape w arg0 slug Hv Hret)
    as (rs & ls & _ & _ & Els & ->).
  rewrite slug_text_length, (letters_length _ _ _ _ Hv Els). lia.
Qed.

Lemma gen_unique_slug_decode (w : world) (arg0 : option Z) (slug : list ascii) :
  returns (gen_unique_slug w arg0) slug ->
  decode slug =
  digit_string (call_timestamp w (requested_length arg0)) (requested_length arg0).
Proof.
  intros Hret. pose proof (returns_valid w arg0 slug Hret) as Hv.
  pose proof (valid_length_range _ Hv) as Hrange.
  destruct (gen_unique_slug_shape w arg0 slug Hv Hret)
    as (rs & ls & _ & _ & Els & ->).
  apply (decode_slug_text _ _ rs); [|exact Els].
  apply digit_string_decimal. lia.
Qed.

Lemma slug_decodes_in_range (w : world) (arg0 : option Z) (slug : list ascii) :
  returns (gen_unique_slug w arg0) slug ->
  0 <= tv_sec (realtime w 0) < 10 ^ 10 ->
  0 <= tv_nsec (realtime w 0) < 10 ^ 9 ->
  decimal_value (decode slug) =
  spec_timestamp (tv_sec (realtime w 0)) (tv_nsec (realtime w 0))
                 (requested_length arg0).
Proof.
  intros Hret Hs Hn. pose proof (returns_valid w arg0 slug Hret) as Hv.
  pose proof (valid_length_range _ Hv) as Hrange.
  rewrite (gen_unique_slug_decode w arg0 slug Hret).
  destruct (timestamp_of_in_range (realtime w 0) _ Hv Hs Hn) as [Heq Hfit].
  unfold call_timestamp.
  destruct (digit_string_padded _ (requested_length arg0) ltac:(lia) Hfit)
    as [_ Hval].
  rewrite Hval. exact Heq.
Qed.

(** X6. A slug gives its time away: for a clock reading at or after
    the epoch and before second 10^10, that is 0 <= tv_sec < 10^10,
    with 0 <= tv_nsec < 10^9, reading the letters of the returned slug
    back through their buckets gives L decimal digits that denote
    exactly the count of time units of the reading, whatever the random
    bytes were.  (Before the epoch the cast of tv_sec to uint64 wraps
    and the digits are not the count: see [readings_before_epoch].) *)
Theorem slug_round_trip (w : world) (arg0 : option Z) (slug : list ascii) :
  returns (gen_unique_slug w arg0) slug ->
  0 <= tv_sec (realtime w 0) < 10 ^ 10 ->
  0 <= tv_nsec (realtime w 0) < 10 ^ 9 ->
  Z.of_nat (length (decode slug)) = requested_length arg0 /\
  Forall is_decimal (decode slug) /\
  decimal_value (decode slug) =
  spec_timestamp (tv_sec (realtime w 0)) (tv_nsec (realtime w 0))
                 (requested_length arg0).
Proof.
  intros Hret Hs Hn. pose proof (returns_valid w arg0 slug Hret) as Hv.
  pose proof (valid_length_range _ Hv) as Hrange.
  split; [|split].
  - rewrite (gen_unique_slug_decode w arg0 slug Hret).
    rewrite digit_string_length by lia. lia.
  - rewrite (gen_unique_slug_decode w arg0 slug Hret).
    apply digit_string_decimal. lia.
  - exact (slug_decodes_in_range w arg0 slug Hret Hs Hn).
Qed.

Lemma slug_round_trip_witness :
  returns (gen_unique_slug scenario_world (Some 10))
          (list_ascii_of_string "rJYqW-eRtYq") /\
  0 <= 1700000000 < 10 ^ 10 /\
  0 <= 123456789 < 10 ^ 9 /\
  decimal_value (decode (list_ascii_of_string "rJYqW-eRtYq")) = 1700000000.
Proof.
  assert (Hret : returns (gen_unique_slug scenario_world (Some 10))
                         (list_ascii_of_string "rJYqW-eRtYq"))
    by (exists (mkState 1 10 [Arm10]); vm_compute; reflexivity).
  split; [exact Hret|]. split; [lia|]. split; [lia|].
  exact (proj2 (proj2 (slug_round_trip scenario_world (Some 10) _ Hret
                         ltac:(cbn; lia) ltac:(cbn; lia)))).
Defined.

(** Readings before the epoch are outside these properties: tv_sec =
    -1 is cast to 2^64 - 1, whose ten leading digits are encoded, and
    so are those of tv_sec = -2. *)
Example readings_before_epoch :
  fst (run (gen_unique_slug before_epoch_world (Some 10))) =
    Ok (list_ascii_of_string "Qcssj-JssqJ") /\
  fst (run (gen_unique_slug before_epoch_world_earlier (Some 10))) =
    Ok (list_ascii_of_string "Qcssj-JssqJ") /\
  decode (list_ascii_of_string "Qcssj-JssqJ") =
    list_ascii_of_string "1844674407".
Proof.
  split; [vm_compute; reflexivity|]. split; vm_compute; reflexivity.
Qed.

(** X7. Uniqueness, as the header of the source promises it: if two
    calls, each at a clock reading with 0 <= tv_sec < 10^10 and
    0 <= tv_nsec < 10^9, return the same slug, then they were made with
    the same length and in the same time unit.  Calls at such readings
    in different time units, or with different lengths, never return
    the same slug, whatever their random bytes.  (Not so before the
    epoch: see [readings_before_epoch].) *)
Theorem slug_unique (w1 w2 : world) (arg1 arg2 : option Z) (slug : list ascii) :
  returns (gen_unique_slug w1 arg1) slug ->
  returns (gen_unique_slug w2 arg2) slug ->
  0 <= tv_sec (realtime w1 0) < 10 ^ 10 ->
  0 <= tv_nsec (realtime w1 0) < 10 ^ 9 ->
  0 <= tv_sec (realtime w2 0) < 10 ^ 10 ->
  0 <= tv_nsec (realtime w2 0) < 10 ^ 9 ->
  requested_length arg1 = requested_length arg2 /\
  spec_timestamp (tv_sec (realtime w1 0)) (tv_nsec (realtime w1 0))
                 (requested_length arg1) =
  spec_timestamp (tv_sec (realtime w2 0)) (tv_nsec (realtime w2 0))
                 (requested_length arg2).
Proof.
  intros Hr1 Hr2 Hs1 Hn1 Hs2 Hn2.
  pose proof (gen_unique_slug_length w1 arg1 slug Hr1) as Hl1.
  pose proof (gen_unique_slug_length w2 arg2 slug Hr2) as Hl2.
  split; [lia|].
  rewrite <- (slug_decodes_in_range w1 arg1 slug Hr1 Hs1 Hn1).
  rewrite <- (slug_decodes_in_range w2 arg2 slug Hr2 Hs2 Hn2).
  reflexivity.
Qed.

Lemma slug_unique_witness :
  returns (gen_unique_slug late_in_second_world (Some 10))
          (list_ascii_of_string "QJqqq-qqqqq") /\
  returns (gen_unique_slug early_in_second_world (Some 10))
          (list_ascii_of_string "QJqqq-qqqqq") /\
  spec_timestamp 1700000000 999999999 10 = spec_timestamp 1700000000 5 10.
Proof.
  assert (H1 : returns (gen_unique_slug late_in_second_world (Some 10))
                       (list_ascii_of_string "QJqqq-qqqqq"))
    by (exists (mkState 1 10 [Arm10]); vm_compute; reflexivity).
  assert (H2 : returns (gen_unique_slug early_in_second_world (Some 10))
                       (list_ascii_of_string "QJqqq-qqqqq"))
    by (exists (mkState 1 10 [Arm10]); vm_compute; reflexivity).
  split; [exact H1|]. split; [exact H2|].
  exact (proj2 (slug_unique late_in_second_world early_in_second_world
                  (Some 10) (Some 10) _ H1 H2
                  ltac:(cbn; lia) ltac:(cbn; lia) ltac:(cbn; lia) ltac:(cbn; lia))).
Defined.

(** ** Past the width *)

Lemma digit_string_leading (ts len : Z) :
  valid_length len = true ->
  10 ^ len <= ts < 2 ^ 64 ->
  decimal_value (digit_string ts len) =
  ts / 10 ^ (Z.of_nat (length (utoa ts)) - len).
Proof.
  intros Hv Hts. pose proof (valid_length_range len Hv) as Hrange.
  assert (H0 : 0 < 10 ^ len) by (apply Z.pow_pos_nonneg; lia).
  assert (Hu : 0 <= ts < UINT64_MODULUS) by (unfold UINT64_MODULUS; lia).
  assert (Hn : (Z.to_nat len < length (utoa ts))%nat).
  { apply utoa_long; [exact Hu|]. rewrite Z2Nat.id by lia. lia. }
  rewrite digit_string_long by (rewrite ?to_uint64_small by exact Hu; lia).
  rewrite to_uint64_small by exact Hu.
  unfold decimal_value, utoa in *.
  rewrite firstn_rev, rev_involutive.
  rewrite value_rev_skipn by apply utoa_rev_decimal.
  rewrite utoa_rev_value by (apply uint64_lt_pow10_20; exact Hu).
  rewrite length_rev in *. f_equal. f_equal. lia.
Qed.

(** A call of [timestamp_to_slug] depends on the timestamp through the
    digit string only. *)
Lemma timestamp_to_slug_by_digit_string (w : world) (ts1 ts2 len : Z) (st : state) :
  0 <= len <= 19 ->
  digit_string ts1 len = digit_string ts2 len ->
  timestamp_to_slug w ts1 len st = timestamp_to_slug w ts2 len st.
Proof.
  intros Hlen Hds.
  destruct (draws_dec w (random_draws st) (Z.to_nat len))
    as [(rs & Hl & Hd) | (rs & Hl & Hd & Hn)].
  - destruct (timestamp_to_slug_ok w ts1 len rs st Hlen Hl Hd) as (ls1 & E1 & R1).
    destruct (timestamp_to_slug_ok w ts2 len rs st Hlen Hl Hd) as (ls2 & E2 & R2).
    rewrite Hds, E2 in E1. injection E1 as <-. rewrite R1, R2. reflexivity.
  - rewrite (timestamp_to_slug_fail w ts1 len rs st Hlen Hl Hd Hn).
    rewrite (timestamp_to_slug_fail w ts2 len rs st Hlen Hl Hd Hn).
    reflexivity.
Qed.

(** X8. Past the width the promise of uniqueness is gone: two
    timestamps of more than L digits whose L leading digits agree are
    encoded alike, so that with the same random bytes
    [timestamp_to_slug] gives the same result for both. *)
Theorem beyond_width_collisions (w : world) (len ts1 ts2 : Z) (st : state) :
  valid_length len = true ->
  10 ^ len <= ts1 < 2 ^ 64 ->
  10 ^ len <= ts2 < 2 ^ 64 ->
  ts1 / 10 ^ (Z.of_nat (length (utoa ts1)) - len) =
  ts2 / 10 ^ (Z.of_nat (length (utoa ts2)) - len) ->
  digit_string ts1 len = digit_string ts2 len /\
  timestamp_to_slug w ts1 len st = timestamp_to_slug w ts2 len st.
Proof.
  intros Hv H1 H2 Hlead. pose proof (valid_length_range len Hv) as Hrange.
  assert (Hds : digit_string ts1 len = digit_string ts2 len).
  { rewrite <- (digit_string_leading ts1 len Hv H1) in Hlead.
    rewrite <- (digit_string_leading ts2 len Hv H2) in Hlead.
    destruct (digit_string_of_value (digit_string ts1 len) len ltac:(lia)
                (digit_string_length ts1 len ltac:(lia))
                (digit_string_decimal ts1 len ltac:(lia))) as [_ E1].
    destruct (digit_string_of_value (digit_string ts2 len) len ltac:(lia)
                (digit_string_length ts2 len ltac:(lia))
                (digit_string_decimal ts2 len ltac:(lia))) as [_ E2].
    rewrite <- E1, <- E2, Hlead. reflexivity. }
  split; [exact Hds|].
  apply timestamp_to_slug_by_digit_string; [lia | exact Hds].
Qed.

Lemma beyond_width_collisions_witness :
  valid_length 10 = true /\
  10 ^ 10 <= 12345678901 < 2 ^ 64 /\
  10 ^ 10 <= 123456789098 < 2 ^ 64 /\
  12345678901 / 10 ^ (11 - 10) = 123456789098 / 10 ^ (12 - 10) /\
  run (timestamp_to_slug zero_world 12345678901 10) =
  run (timestamp_to_slug zero_world 123456789098 10).
Proof.
  split; [reflexivity|]. split; [lia|]. split; [lia|]. split; [reflexivity|].
  exact (proj2 (beyond_width_collisions zero_world 10 12345678901 123456789098
                  initial_state eq_refl ltac:(lia) ltac:(lia) eq_refl)).
Defined.

(** ** Coarser and finer precisions *)

(** The count at a coarser precision is the count at a finer one,
    divided. *)
Lemma spec_timestamp_coarser (secs nanos len1 len2 : Z) :
  valid_length len1 = true -> valid_length len2 = true ->
  len1 <= len2 ->
  0 <= nanos < 10 ^ 9 ->
  spec_timestamp secs nanos len1 =
  spec_timestamp secs nanos len2 / 10 ^ (len2 - len1).
Proof.
  intros H1 H2 Hle Hn.
  apply valid_length_cases in H1. apply valid_length_cases in H2.
  div_facts nanos 1000. div_facts nanos 1000000.
  destruct H1 as [-> | [-> | [-> | ->]]];
    destruct H2 as [-> | [-> | [-> | ->]]]; try lia;
    unfold spec_timestamp; cbn [Z.eqb Pos.eqb];
    rewrite ?Z.quot_div_nonneg by lia;
    match goal with
    | |- _ = _ / 10 ^ ?e =>
        let m := eval vm_compute in (10 ^ e) in
        change (10 ^ e) with m
    end;
    match goal with
    | |- ?A = ?B / ?m =>
        apply (Z.div_unique B m A (B - m * A)); [left; lia | lia]
    end.
Qed.

(** The first digits of a zero-padded rendering are the rendering of
    the quotient. *)
Lemma digit_string_prefix (ts len1 len2 : Z) :
  1 <= len1 <= len2 -> len2 <= 19 ->
  0 <= ts < 10 ^ len2 ->
  digit_string (ts / 10 ^ (len2 - len1)) len1 =
  firstn (Z.to_nat len1) (digit_string ts len2).
Proof.
  intros Hl1 Hl2 Hts.
  pose proof (digit_string_length ts len2 ltac:(lia)) as Hlen.
  pose proof (digit_string_decimal ts len2 ltac:(lia)) as Hdec.
  destruct (digit_string_padded ts len2 ltac:(lia) Hts) as [_ Hval].
  set (cs := digit_string ts len2) in *.
  assert (Hpre : decimal_value (firstn (Z.to_nat len1) cs) =
                 ts / 10 ^ (len2 - len1)).
  { unfold decimal_value in *.
    rewrite firstn_skipn_rev, rev_involutive.
    rewrite value_rev_skipn by (apply Forall_rev, Hdec).
    rewrite Hval. f_equal. f_equal. lia. }
  rewrite <- Hpre.
  apply digit_string_of_value; [lia | | apply Forall_firstn_of, Hdec].
  rewrite length_firstn. lia.
Qed.

(** X10. The digit strings of the four precisions are nested: for
    one clock reading with 0 <= tv_sec < 10^10 and 0 <= tv_nsec < 10^9,
    the slug of a coarser precision decodes to the first digits of what
    the slug of a finer precision decodes to, whatever the random bytes
    of the two calls. *)
Theorem precision_prefix (w1 w2 : world) (arg1 arg2 : option Z)
        (slug1 slug2 : list ascii) :
  returns (gen_unique_slug w1 arg1) slug1 ->
  returns (gen_unique_slug w2 arg2) slug2 ->
  realtime w1 0 = realtime w2 0 ->
  0 <= tv_sec (realtime w1 0) < 10 ^ 10 ->
  0 <= tv_nsec (realtime w1 0) < 10 ^ 9 ->
  requested_length arg1 <= requested_length arg2 ->
  decode slug1 = firstn (Z.to_nat (requested_length arg1)) (decode slug2).
Proof.
  intros Hr1 Hr2 Hclock Hs Hn Hle.
  pose proof (returns_valid w1 arg1 slug1 Hr1) as Hv1.
  pose proof (returns_valid w2 arg2 slug2 Hr2) as Hv2.
  pose proof (valid_length_range _ Hv1) as Hrange1.
  pose proof (valid_length_range _ Hv2) as Hrange2.
  rewrite (gen_unique_slug_decode w1 arg1 slug1 Hr1).
  rewrite (gen_unique_slug_decode w2 arg2 slug2 Hr2).
  unfold call_timestamp. rewrite <- Hclock.
  destruct (timestamp_of_in_range (realtime w1 0) _ Hv1 Hs Hn) as [E1 _].
  destruct (timestamp_of_in_range (realtime w1 0) _ Hv2 Hs Hn) as [E2 F2].
  rewrite <- digit_string_prefix by lia.
  f_equal. rewrite E1, E2.
  apply spec_timestamp_coarser; assumption.
Qed.

Lemma precision_prefix_witness :
  returns (gen_unique_slug scenario_world (Some 10))
          (list_ascii_of_string "rJYqW-eRtYq") /\
  returns (gen_unique_slug scenario_world_other (Some 13))
          (list_ascii_of_string "QJqqqq-qqqqQuU") /\
  decode (list_ascii_of_string "rJYqW-eRtYq") =
  firstn 10 (decode (list_ascii_of_string "QJqqqq-qqqqQuU")).
Proof.
  assert (H1 : returns (gen_unique_slug scenario_world (Some 10))
                       (list_ascii_of_string "rJYqW-eRtYq"))
    by (exists (mkState 1 10 [Arm10]); vm_compute; reflexivity).
  assert (H2 : returns (gen_unique_slug scenario_world_other (Some 13))
                       (list_ascii_of_string "QJqqqq-qqqqQuU"))
    by (exists (mkState 1 13 [Arm13]); vm_compute; reflexivity).
  split; [exact H1|]. split; [exact H2|].
  exact (precision_prefix scenario_world scenario_world_other (Some 10) (Some 13)
           _ _ H1 H2 eq_refl ltac:(cbn; lia) ltac:(cbn; lia) ltac:(cbn; lia)).
Defined.

(** ** The random byte and the letter *)

Lemma all_bytes_complete (b : Byte.byte) : In b all_bytes.
Proof.
  unfold all_bytes. apply in_flat_map. exists (Byte.to_nat b). split.
  - apply in_seq. pose proof (Byte.to_nat_bounded b). lia.
  - rewrite Byte.of_to_nat. left. reflexivity.
Qed.

Lemma all_bytes_NoDup : NoDup all_bytes.
Proof.
  apply (NoDup_map_inv ascii_of_byte). apply nodupb_sound.
  vm_compute. reflexivity.
Qed.

(** X9. The bias of [rnd % bucket_size]: of the 256 values of the
    random byte, each letter of a bucket of 6 is selected by 43 (its
    first four letters) or 42 (the last two), each letter of a bucket
    of 5 by 52 (its first letter) or 51 (the others): the letter at
    index j of the bucket of digit d is selected by 256 / size(d)
    values, and by one more when j < 256 mod size(d).  So every letter
    of the bucket can come out, and no letter of another bucket. *)
Theorem modulo_bias (d : Z) (j : nat) (l : ascii) :
  0 <= d <= 9 ->
  nth_error (spec_DigitBucket d) j = Some l ->
  (forall b, In b all_bytes) /\ NoDup all_bytes /\
  Z.of_nat (length (selecting_bytes (digit_char d) l)) =
    256 / spec_bucket_size d
    + (if Z.of_nat j <? 256 mod spec_bucket_size d then 1 else 0) /\
  (forall rnd l', encode_digit (digit_char d) rnd = Some l' ->
                  In l' (spec_DigitBucket d)).
Proof.
  intros Hd Hj.
  split; [exact all_bytes_complete|]. split; [exact all_bytes_NoDup|]. split.
  - digit_cases d;
      do 7 (try (destruct j as [|j];
                 [cbn in Hj; injection Hj as <-; vm_compute; reflexivity|]));
      cbn in Hj; destruct j; discriminate Hj.
  - intros rnd l' He.
    assert (Hdec : is_decimal (digit_char d)) by (exists d; split; [exact Hd | reflexivity]).
    destruct (encode_digit_by_table _ rnd l' Hdec He) as [_ Hnth].
    rewrite digit_of_digit_char in Hnth by exact Hd.
    eapply nth_error_In, Hnth.
Qed.

Lemma modulo_bias_witness :
  0 <= 7 <= 9 /\
  nth_error (spec_DigitBucket 7) 0 = Some "J"%char /\
  Z.of_nat (length (selecting_bytes "7"%char "J"%char)) = 52.
Proof.
  split; [lia|]. split; [reflexivity|].
  exact (proj1 (proj2 (proj2 (modulo_bias 7 0 "J"%char ltac:(lia) eq_refl)))).
Defined.

(** ** Upper and lower case *)

Lemma swap_case_bucket (d : Z) (l : ascii) :
  0 <= d <= 9 -> In l (spec_DigitBucket d) ->
  decode_char l = [digit_char d] /\
  decode_char (swap_case l) = [pair_digit (digit_char d)].
Proof.
  intros Hd Hin.
  digit_cases d; cbn in Hin;
    repeat (destruct Hin as [<-|Hin]; [split; reflexivity|]); contradiction.
Qed.

Lemma letter_spec_bucket (l : ascii) :
  is_letter l -> exists d, 0 <= d <= 9 /\ In l (spec_DigitBucket d).
Proof.
  unfold is_letter, all_letters. intros H.
  apply in_concat in H. destruct H as (b & Hb & Hl).
  destruct tables_are_spec as [Et _]. rewrite Et in Hb.
  apply in_map_iff in Hb. destruct Hb as (d & <- & Hd).
  exists d. split; [|exact Hl].
  unfold decimal_digits in Hd. cbn in Hd.
  repeat (destruct Hd as [<-|Hd]; [lia|]). contradiction.
Qed.

Lemma decode_swap_case (s : list ascii) :
  Forall (fun c => c = "-"%char \/ is_letter c) s ->
  decode (map swap_case s) = map pair_digit (decode s).
Proof.
  induction 1 as [|c s Hc _ IH]; [reflexivity|].
  unfold decode in *. cbn [map flat_map]. rewrite map_app, IH. f_equal.
  destruct Hc as [->|Hc]; [reflexivity|].
  destruct (letter_spec_bucket c Hc) as (d & Hd & Hin).
  destruct (swap_case_bucket d c Hd Hin) as [E1 E2].
  rewrite E1, E2. reflexivity.
Qed.

(** X11. Case matters.  The buckets come in pairs, 0 and 1, 2 and 3,
    ..., 8 and 9, that hold the same letters in opposite case: changing
    the case of every letter of a returned slug changes every digit it
    decodes to into the other digit of its pair, and never gives the
    same digits.  A store that folds case cannot tell those slugs
    apart. *)
Theorem case_matters (w : world) (arg0 : option Z) (slug : list ascii) :
  returns (gen_unique_slug w arg0) slug ->
  decode (map swap_case slug) = map pair_digit (decode slug) /\
  Z.of_nat (length (decode (map swap_case slug))) = requested_length arg0 /\
  (forall k c,
     nth_error (decode slug) k = Some c ->
     nth_error (decode (map swap_case slug)) k = Some (pair_digit c) /\
     pair_digit c <> c).
Proof.
  intros Hret. pose proof (returns_valid w arg0 slug Hret) as Hv.
  pose proof (valid_length_range _ Hv) as Hrange.
  assert (Hswap : decode (map swap_case slug) = map pair_digit (decode slug)).
  { apply decode_swap_case.
    destruct (gen_unique_slug_shape w arg0 slug Hv Hret)
      as (rs & ls & _ & _ & Els & ->).
    apply Forall_forall. intros c Hin.
    destruct (ascii_dec c "-"%char) as [->|Hne]; [left; reflexivity|].
    right. eapply slug_text_chars;
      [exact (encode_all_letters _ _ _ Els) | exact Hin | exact Hne]. }
  pose proof (gen_unique_slug_decode w arg0 slug Hret) as Hdec.
  split; [exact Hswap|]. split.
  - rewrite Hswap, length_map, Hdec, digit_string_length by lia. lia.
  - intros k c Hk. split.
    + rewrite Hswap, nth_error_map, Hk. reflexivity.
    + assert (Hc : is_decimal c).
      { apply nth_error_In in Hk. rewrite Hdec in Hk.
        pose proof (digit_string_decimal
                      (call_timestamp w (requested_length arg0))
                      (requested_length arg0) ltac:(lia)) as HF.
        rewrite Forall_forall in HF. exact (HF _ Hk). }
      destruct Hc as (d & Hd & ->).
      digit_cases d; discriminate.
Qed.

Lemma case_matters_witness :
  returns (gen_unique_slug scenario_world (Some 10))
          (list_ascii_of_string "rJYqW-eRtYq") /\
  decode (map swap_case (list_ascii_of_string "rJYqW-eRtYq")) =
  map pair_digit (decode (list_ascii_of_string "rJYqW-eRtYq")).
Proof.
  assert (Hret : returns (gen_unique_slug scenario_world (Some 10))
                         (list_ascii_of_string "rJYqW-eRtYq"))
    by (exists (mkState 1 10 [Arm10]); vm_compute; reflexivity).
  split; [exact Hret|].
  exact (proj1 (case_matters scenario_world (Some 10) _ Hret)).
Defined.

(** ** timestamp_to_slug at any length *)

Lemma slug_loop_step_undefined (w : world) (digits : list ascii) (half : Z)
      (n : nat) (i : Z) (slug : list ascii) (st : state) :
  index digits i = None ->
  slug_loop w (S n) i digits half slug st = (Undefined, st).
Proof.
  intros Hi. cbn [slug_loop]. unfold bind at 1. unfold load at 1.
  rewrite Hi. reflexivity.
Qed.

(** The loop when the digit characters run out before the iterations. *)
Lemma slug_loop_overrun (w : world) (digits : list ascii) (half : Z) :
  forall cs pre rs slug st n,
    digits = pre ++ cs ->
    Forall is_decimal cs ->
    length rs = length cs ->
    draws_are w (random_draws st) rs ->
    slug_loop w (length cs + S n) (Z.of_nat (length pre)) digits half slug st =
    (Undefined, advance st (length cs)).
Proof.
  induction cs as [|c0 cs IH]; intros pre [|r rs] slug st n Hd Hcs Hlen Hr;
    try discriminate.
  - cbn [length Nat.add]. rewrite slug_loop_step_undefined.
    + unfold advance. destruct st; reflexivity.
    + rewrite Hd, app_nil_r. unfold index.
      destruct (Z.ltb_spec (Z.of_nat (length pre)) 0) as [|_]; [lia|].
      apply nth_error_None. lia.
  - apply draws_are_cons in Hr. destruct Hr as [Hr0 Hr].
    apply Forall_cons_iff in Hcs. destruct Hcs as [Hc0 Hcs'].
    destruct (encode_digit_total c0 r Hc0) as (b & l & _ & El & _).
    cbn [length Nat.add].
    rewrite (slug_loop_step_ok w digits half _ _ _ _ c0 r l); try assumption.
    + replace (Z.of_nat (length pre) + 1) with (Z.of_nat (length (pre ++ [c0])))
        by (rewrite length_app; simpl; lia).
      rewrite (IH (pre ++ [c0]) rs); try assumption.
      * rewrite advance_advance. reflexivity.
      * rewrite Hd, <- app_assoc. reflexivity.
      * simpl in Hlen. lia.
    + rewrite Hd. unfold index.
      destruct (Z.ltb_spec (Z.of_nat (length pre)) 0) as [|_]; [lia|].
      rewrite Nat2Z.id, nth_error_app2, Nat.sub_diag by lia. reflexivity.
Qed.

(** X12. What the length check of [gen_unique_slug] protects
    [timestamp_to_slug] from.  Called with a length of 0 or less the
    function draws nothing and leaves the empty string; with any length
    from 1 to 19 it stays in bounds and, the draws succeeding, leaves
    len + 1 characters with the hyphen at index len/2, which is the
    first character when len is 1; with a length of 20 or more the
    19 characters of the digit buffer run out: after 19 draws the 20th
    iteration finds [digits[19]], the NUL, where a digit should be, and
    its table access is out of range. *)
Theorem timestamp_to_slug_all_lengths (w : world) (ts len : Z) (st : state) :
  (len <= 0 ->
   timestamp_to_slug w ts len st = (Ok [NUL], st)) /\
  (1 <= len <= 19 ->
   forall rs,
     length rs = Z.to_nat len -> draws_are w (random_draws st) rs ->
     exists buf,
       timestamp_to_slug w ts len st = (Ok buf, advance st (Z.to_nat len)) /\
       Z.of_nat (length (cstring_to_text buf)) = len + 1 /\
       nth_error (cstring_to_text buf) (Z.to_nat (len / 2)) = Some "-"%char) /\
  (20 <= len ->
   forall rs,
     length rs = 19%nat -> draws_are w (random_draws st) rs ->
     timestamp_to_slug w ts len st = (Undefined, advance st 19)).
Proof.
  split; [|split].
  - intros Hlen. unfold timestamp_to_slug, bind.
    replace (Z.to_nat len) with 0%nat by lia. reflexivity.
  - intros Hlen rs Hl Hd.
    destruct (timestamp_to_slug_ok w ts len rs st ltac:(lia) Hl Hd)
      as (ls & Els & Hrun).
    exists (assemble (Z.quot len 2) 0 ls ++ [NUL]).
    split; [exact Hrun|].
    destruct (encode_all_length _ _ _ Els) as [Hls _].
    rewrite digit_string_length in Hls by lia.
    rewrite (assemble_text len ls ltac:(lia) Hls (encode_all_letters _ _ _ Els)).
    rewrite slug_text_length. split; [lia|].
    apply slug_text_hyphen. rewrite Hls.
    apply Z2Nat.inj_le; [apply Z.div_pos; lia | lia |].
    apply Z.div_le_upper_bound; lia.
  - intros Hlen rs Hl Hd.
    unfold timestamp_to_slug, bind.
    set (digits := snprintf_0llu 20 len (to_uint64 ts)).
    assert (Hdig : length digits = 19%nat).
    { unfold digits, snprintf_0llu. rewrite length_firstn.
      pose proof (format_0llu_length len (to_uint64 ts) ltac:(lia)). lia. }
    assert (Hdec : Forall is_decimal digits)
      by (apply snprintf_0llu_decimal; lia).
    replace (Z.to_nat len) with (length digits + S (Z.to_nat len - 20))%nat by lia.
    rewrite (slug_loop_overrun w digits (Z.quot len 2) digits [] rs [] st);
      [rewrite Hdig; reflexivity | reflexivity | exact Hdec | lia | exact Hd].
Qed.

Lemma timestamp_to_slug_all_lengths_witness :
  1 <= 1 <= 19 /\
  length [Byte.x2a] = Z.to_nat 1 /\
  draws_are far_future_world 0 [Byte.x2a] /\
  20 <= 20 /\
  draws_are far_future_world 0 (repeat Byte.x2a 19) /\
  (exists buf,
     timestamp_to_slug far_future_world 7 1 initial_state =
       (Ok buf, advance initial_state (Z.to_nat 1)) /\
     nth_error (cstring_to_text buf) 0 = Some "-"%char) /\
  timestamp_to_slug far_future_world 7 20 initial_state =
    (Undefined, advance initial_state 19) /\
  timestamp_to_slug far_future_world 7 (-3) initial_state =
    (Ok [NUL], initial_state).
Proof.
  split; [lia|]. split; [reflexivity|]. split; [reflexivity|].
  split; [lia|]. split; [reflexivity|].
  destruct (timestamp_to_slug_all_lengths far_future_world 7 1 initial_state)
    as (_ & Hmid & _).
  destruct (Hmid ltac:(lia) [Byte.x2a] eq_refl eq_refl) as (buf & Hrun & _ & Hhy).
  split; [exists buf; split; [exact Hrun | exact Hhy]|].
  split.
  - exact (proj2 (proj2 (timestamp_to_slug_all_lengths far_future_world 7 20
                           initial_state))
             ltac:(lia) (repeat Byte.x2a 19) eq_refl eq_refl).
  - exact (proj1 (timestamp_to_slug_all_lengths far_future_world 7 (-3)
                    initial_state) ltac:(lia)).
Defined.
